(** * Railway CO2 calculator: the emissions endpoint of backend/main.py

    A shallow embedding of [calculate_emissions] (src/railway/backend/main.py,
    lines 76-122) together with the Python built-ins it calls, and the
    properties of its result.

    Python's [float] is IEEE 754 binary64; it is modelled by Rocq's primitive
    [float], whose operations are the same binary64 operations (round to
    nearest, ties to even) and are specified over [spec_float] by the
    standard library. Python's [int] is [Z], [str] is [string], a [dict]
    keyed by strings is a [gmap string], a [list] is a [list]. An exception
    is the left injection of a sum. *)

From Stdlib Require Import ZArith Floats Lia Bool.
From stdpp Require Import gmap strings list.

Set Warnings "-inexact-float".
Local Open Scope Z_scope.

(** * Part I: the program *)

(** ** Exceptions *)

(** The exceptions that the endpoint or the built-ins it calls can raise.
    [HTTPException] is the only one the endpoint raises itself; the others
    come from subscripting and from [round]. *)
Inductive exn : Type :=
  | HTTPException (status_code : Z) (detail : string)
  | KeyError (key : string)
  | IndexError
  | ValueError
  | OverflowError.

Definition Exc (A : Type) : Type := exn + A.

Definition ret {A} (a : A) : Exc A := inr a.
Definition raise {A} (e : exn) : Exc A := inl e.
Definition bind {A B} (c : Exc A) (k : A → Exc B) : Exc B :=
  match c with
  | inl e => inl e
  | inr a => k a
  end.

Notation "'let*' x ':=' c 'in' k" := (bind c (fun x => k))
  (at level 10, x name, c at level 100, k at level 200).
Notation "'let*' ( x , y ) ':=' c 'in' k" := (bind c (fun '(x, y) => k))
  (at level 10, x name, y name, c at level 100, k at level 200).

(** ** Python built-ins *)

Module Py.

(** [k in d] for a dictionary. *)
Definition contains {V} (d : gmap string V) (k : string) : bool :=
  match d !! k with
  | Some _ => true
  | None => false
  end.

(** [d[k]] for a dictionary. *)
Definition getitem {V} (d : gmap string V) (k : string) : Exc V :=
  match d !! k with
  | Some v => ret v
  | None => raise (KeyError k)
  end.

(** [x in t] for a tuple of strings: equality with one of the items. *)
Definition in_tuple (x : string) (t : list string) : bool :=
  existsb (String.eqb x) t.

(** [l[i]] for a list and an index [i >= 0]. *)
Definition index {A} (l : list A) (i : nat) : Exc A :=
  match l !! i with
  | Some a => ret a
  | None => raise IndexError
  end.

(** [l[-1]]. *)
Definition index_last {A} (l : list A) : Exc A :=
  match last l with
  | Some a => ret a
  | None => raise IndexError
  end.

(** The integer nearest to [n / d] for [d > 0], ties going to the even
    one. *)
Definition round_half_even (n d : Z) : Z :=
  let q := n / d in
  match 2 * (n mod d) ?= d with
  | Lt => q
  | Eq => if Z.even q then q else q + 1
  | Gt => q + 1
  end.

(** The magnitude [m * 2^e] of a finite float as a fraction. *)
Definition numerator (m : positive) (e : Z) : Z := Z.pos m * 2 ^ Z.max e 0.
Definition denominator (e : Z) : Z := 2 ^ Z.max (- e) 0.

(** [round(x)] of a float: the nearest integer, ties to even;
    [ValueError] on a NaN, [OverflowError] on an infinity. *)
Definition round (x : float) : Exc Z :=
  match Prim2SF x with
  | S754_nan => raise ValueError
  | S754_infinity _ => raise OverflowError
  | S754_zero _ => ret 0
  | S754_finite s m e =>
      ret (cond_Zopp s (round_half_even (numerator m e) (denominator e)))
  end.

(** The binary64 value nearest to [n / d], for [n >= 0] and [d > 0], with
    sign [s]. *)
Definition float_of_ratio (s : bool) (n d : Z) : spec_float :=
  match n with
  | Z.pos _ =>
      let '(q, e, l) := SFdiv_core_binary prec emax n 0 d 0 in
      binary_round_aux prec emax s q e l
  | _ => S754_zero s
  end.

(** [round(x, ndigits)] of a float for [ndigits >= 0]: the exact value
    of [x] is rounded to [ndigits] decimal places, ties to even, and the
    decimal obtained is converted back to the nearest float. NaN and the
    infinities round to themselves; the sign of [x] is kept. *)
Definition round_ndigits (x : float) (ndigits : nat) : float :=
  match Prim2SF x with
  | S754_finite s m e =>
      let p := 10 ^ Z.of_nat ndigits in
      SF2Prim (float_of_ratio s (round_half_even (numerator m e * p) (denominator e)) p)
  | _ => x
  end.

(** [max(a, b)] on integers. *)
Definition max (a b : Z) : Z := if a <? b then b else a.

End Py.

(** ** Data model *)

(** A coordinate is the pair (latitude, longitude) in degrees. *)
Definition Coordinate : Type := float * float.

(** A value of [ROUTES]: the dictionary with the display name under
    ["name"] and the ordered station identifiers under ["stations"]. *)
Record Route := {
  name : string;
  stations : list string
}.

(** The request body (class [EmissionRequest]). *)
Record EmissionRequest := {
  route_id : string;
  weight_tons : float;
  container : string
}.

(** The dictionary the endpoint returns; [from_] and [to_] are its keys
    ["from"] and ["to"]. *)
Record Response := {
  route_name : string;
  from_ : string;
  to_ : string;
  distance_km : float;
  rail_kg : float;
  ship_kg : float;
  saved_kg : float;
  trees : Z;
  coords : list Coordinate
}.

(** Emission factors, kg of CO2 per ton-kilometre, by mode and container. *)
Definition EMISSION_FACTORS : gmap string (gmap string float) :=
  {[ "rail" := {[ "dfe" := 0.018%float; "sfe" := 0.015%float ]};
     "ship_plus" := {[ "dfe" := 0.045%float; "sfe" := 0.038%float ]} ]}.

(** The local variables of [calculate_emissions] once [saved] is assigned
    (line 107). *)
Record Locals := {
  l_route : Route;
  l_distance_km : float;
  l_coords : list Coordinate;
  l_rail_factor : float;
  l_ship_factor : float;
  l_rail_emission : float;
  l_ship_emission : float;
  l_saved : float
}.

(** The prefix of the detail of the HTTP 500 error. *)
Definition no_coordinates : string := "Нет координат для станции: ".

(** ** The endpoint *)

Section Engine.

(** The module [data.routes_with_coords] is imported by main.py and is not
    part of the sources: its two tables and its distance function are
    parameters of the development. [haversine] takes two points as
    (lat1, lon1, lat2, lon2) and returns kilometres; it is taken to
    return a float on every input. *)
Variable ROUTES : gmap string Route.
Variable COORDINATES : gmap string Coordinate.
Variable haversine : float → float → float → float → float.

(** One iteration of the loop of lines 92-99, on the pair
    [(distance_km, coords)]. *)
Definition loop_body (i : nat) (station : string) (st : float * list Coordinate)
  : Exc (float * list Coordinate) :=
  let '(distance_km, coords) := st in
  if negb (Py.contains COORDINATES station) then
    raise (HTTPException 500 (no_coordinates +:+ station))
  else
    let* (lat, lon) := Py.getitem COORDINATES station in
    let coords := coords ++ [(lat, lon)] in
    if (0 <? i)%nat then
      let* (lat1, lon1) := Py.index coords (i - 1) in
      ret ((distance_km + haversine lat1 lon1 lat lon)%float, coords)
    else
      ret (distance_km, coords).

(** [for i, station in enumerate(stations)], counting from [i]. *)
Fixpoint for_enumerate (i : nat) (stations : list string) (st : float * list Coordinate)
  : Exc (float * list Coordinate) :=
  match stations with
  | [] => ret st
  | station :: rest =>
      let* st' := loop_body i station st in
      for_enumerate (S i) rest st'
  end.

(** Lines 78-107: validation, the distance loop and the emissions. *)
Definition calculate_locals (req : EmissionRequest) : Exc Locals :=
  if negb (Py.contains ROUTES (route_id req)) then
    raise (HTTPException 400 "Неверный ID маршрута")
  else if negb (Py.in_tuple (container req) ["dfe"; "sfe"]) then
    raise (HTTPException 400 "container должен быть 'dfe' или 'sfe'")
  else if (weight_tons req <=? 0)%float then
    raise (HTTPException 400 "Масса должна быть больше 0")
  else
    let* route := Py.getitem ROUTES (route_id req) in
    let* (distance_km, coords) := for_enumerate 0 (stations route) (0%float, []) in
    let* rail := Py.getitem EMISSION_FACTORS "rail" in
    let* rail_factor := Py.getitem rail (container req) in
    let* ship_plus := Py.getitem EMISSION_FACTORS "ship_plus" in
    let* ship_factor := Py.getitem ship_plus (container req) in
    let rail_emission := (weight_tons req * distance_km * rail_factor)%float in
    let ship_emission := (weight_tons req * distance_km * ship_factor)%float in
    let saved := (ship_emission - rail_emission)%float in
    ret {| l_route := route;
           l_distance_km := distance_km;
           l_coords := coords;
           l_rail_factor := rail_factor;
           l_ship_factor := ship_factor;
           l_rail_emission := rail_emission;
           l_ship_emission := ship_emission;
           l_saved := saved |}.

(** Lines 110-122: the tree count and the dictionary returned. *)
Definition respond (l : Locals) : Exc Response :=
  let* n := Py.round (l_saved l / 22)%float in
  let trees := Py.max 0 n in
  let* origin := Py.index (stations (l_route l)) 0 in
  let* destination := Py.index_last (stations (l_route l)) in
  ret {| route_name := name (l_route l);
         from_ := origin;
         to_ := destination;
         distance_km := Py.round_ndigits (l_distance_km l) 1;
         rail_kg := Py.round_ndigits (l_rail_emission l) 1;
         ship_kg := Py.round_ndigits (l_ship_emission l) 1;
         saved_kg := Py.round_ndigits (l_saved l) 1;
         trees := trees;
         coords := l_coords l |}.

Definition calculate_emissions (req : EmissionRequest) : Exc Response :=
  let* l := calculate_locals req in
  respond l.

End Engine.

(** * Part II: notions used to state the properties *)

(** ** The distance of a path *)

Section Path.

Variable haversine : float → float → float → float → float.

(** The great-circle distances of the legs of a path that continues from
    [prev] through [pts]. *)
Fixpoint legs (prev : Coordinate) (pts : list Coordinate) : list float :=
  match pts with
  | [] => []
  | p :: rest => haversine (fst prev) (snd prev) (fst p) (snd p) :: legs p rest
  end.

(** The distances between consecutive points, in the order of the path. *)
Definition segments (pts : list Coordinate) : list float :=
  match pts with
  | [] => []
  | p :: rest => legs p rest
  end.

(** The sum of a list of floats taken from the left, starting at [acc]. *)
Definition sum_from (acc : float) (l : list float) : float :=
  fold_left (λ a h, (a + h)%float) l acc.

(** Path accumulation as the specification words it: the sum of the
    distances between consecutive points, in input order. *)
Definition path_distance (pts : list Coordinate) : float :=
  sum_from 0%float (segments pts).

End Path.

(** ** Requests, stations and weights *)

(** The request passes the three checks of lines 78-83. *)
Definition validated (ROUTES : gmap string Route) (req : EmissionRequest) : Prop :=
  is_Some (ROUTES !! route_id req) ∧
  (container req = "dfe" ∨ container req = "sfe") ∧
  (weight_tons req <=? 0)%float = false.

(** The station has the coordinate [c] in the table. *)
Definition located (COORDINATES : gmap string Coordinate) (s : string) (c : Coordinate) : Prop :=
  COORDINATES !! s = Some c.

(** [math.isfinite]: neither a NaN nor an infinity. *)
Definition isfinite (x : float) : bool :=
  match Prim2SF x with
  | S754_nan | S754_infinity _ => false
  | _ => true
  end.

(** The factor of a mode for a container, when the table has it. *)
Definition factor (mode container : string) : option float :=
  EMISSION_FACTORS !! mode ≫= (.!! container).

(** ** The outcomes of lines 78-107 *)

Section Outcomes.

Variable ROUTES : gmap string Route.
Variable COORDINATES : gmap string Coordinate.
Variable haversine : float → float → float → float → float.

(** The locals when the route is [route], its stations resolve to [pts] and
    the factors are [rf] and [sf]. *)
Definition locals_of (req : EmissionRequest) (route : Route) (pts : list Coordinate)
    (rf sf : float) : Locals :=
  let d := path_distance haversine pts in
  {| l_route := route;
     l_distance_km := d;
     l_coords := pts;
     l_rail_factor := rf;
     l_ship_factor := sf;
     l_rail_emission := (weight_tons req * d * rf)%float;
     l_ship_emission := (weight_tons req * d * sf)%float;
     l_saved := (weight_tons req * d * sf - weight_tons req * d * rf)%float |}.

(** Every way [calculate_locals] can end. *)
Inductive outcome (req : EmissionRequest) : Exc Locals → Prop :=
  | unknown_route :
      ROUTES !! route_id req = None →
      outcome req (inl (HTTPException 400 "Неверный ID маршрута"))
  | unknown_container :
      is_Some (ROUTES !! route_id req) →
      ¬ (container req = "dfe" ∨ container req = "sfe") →
      outcome req (inl (HTTPException 400 "container должен быть 'dfe' или 'sfe'"))
  | non_positive_weight :
      is_Some (ROUTES !! route_id req) →
      (container req = "dfe" ∨ container req = "sfe") →
      (weight_tons req <=? 0)%float = true →
      outcome req (inl (HTTPException 400 "Масса должна быть больше 0"))
  | missing_coordinate route ok s rest pts :
      validated ROUTES req →
      ROUTES !! route_id req = Some route →
      stations route = ok ++ s :: rest →
      Forall2 (located COORDINATES) ok pts →
      COORDINATES !! s = None →
      outcome req (inl (HTTPException 500 (no_coordinates +:+ s)))
  | computed route pts rf sf :
      validated ROUTES req →
      ROUTES !! route_id req = Some route →
      Forall2 (located COORDINATES) (stations route) pts →
      factor "rail" (container req) = Some rf →
      factor "ship_plus" (container req) = Some sf →
      outcome req (inr (locals_of req route pts rf sf)).
End Outcomes.

(** The response built from the locals, when [round] gave [n]. *)
Definition response_of (l : Locals) (n : Z) (origin destination : string) : Response :=
  {| route_name := name (l_route l);
     from_ := origin;
     to_ := destination;
     distance_km := Py.round_ndigits (l_distance_km l) 1;
     rail_kg := Py.round_ndigits (l_rail_emission l) 1;
     ship_kg := Py.round_ndigits (l_ship_emission l) 1;
     saved_kg := Py.round_ndigits (l_saved l) 1;
     trees := Z.max 0 n;
     coords := l_coords l |}.

(** ** Binary64 *)

(** A float of magnitude at most one half. *)
Definition at_most_half (x : spec_float) : Prop :=
  match x with
  | S754_finite _ m e => e ≤ -1 ∧ Z.pos m ≤ 2 ^ (-1 - e)
  | _ => True
  end.

(** The binary64 values of the literals [11] and [22]. *)
Definition eleven : spec_float := S754_finite false 6192449487634432 (-49).
Definition twenty_two : spec_float := S754_finite false 6192449487634432 (-48).

(** ** A small world to run the endpoint on *)

(** Three routes over two located stations: the two-station route of the
    specification's scenario (one degree of longitude on the equator), a
    route with a single station, and a route through a station that has no
    coordinates. *)
Definition demo_route : Route := {| name := "A - B"; stations := ["A"; "B"] |}.
Definition solo_route : Route := {| name := "A"; stations := ["A"] |}.
Definition broken_route : Route := {| name := "A - X"; stations := ["A"; "X"] |}.

Definition demo_routes : gmap string Route :=
  {[ "1" := demo_route; "2" := solo_route; "3" := broken_route ]}.

Definition demo_coordinates : gmap string Coordinate :=
  {[ "A" := (0%float, 0%float); "B" := (0%float, 1%float) ]}.

(** A stand-in for the absent [haversine]: the length of one degree of a
    great circle of radius 6371 km times the flat distance in degrees. It
    agrees with the haversine formula from (0, 0) to (0, 1). *)
Definition demo_haversine (lat1 lon1 lat2 lon2 : float) : float :=
  (111.19492664455873
   * sqrt ((lat2 - lat1) * (lat2 - lat1) + (lon2 - lon1) * (lon2 - lon1)))%float.

Definition demo_request : EmissionRequest :=
  {| route_id := "1"; weight_tons := 10%float; container := "dfe" |}.

Definition demo_response : Response :=
  {| route_name := "A - B";
     from_ := "A";
     to_ := "B";
     distance_km := 111.2%float;
     rail_kg := 20%float;
     ship_kg := 50%float;
     saved_kg := 30%float;
     trees := 1;
     coords := [(0%float, 0%float); (0%float, 1%float)] |}.

Definition solo_request (w : float) : EmissionRequest :=
  {| route_id := "2"; weight_tons := w; container := "dfe" |}.

Definition broken_request : EmissionRequest :=
  {| route_id := "3"; weight_tons := 10%float; container := "sfe" |}.

(** ** The listing endpoints *)

(** [list(v)] for a pair. *)
Definition list_of_pair (v : Coordinate) : list float := [fst v; snd v].

(** A dictionary given by its items in insertion order, as [d.items()]
    lists them; the keys of a dictionary are distinct. *)
Definition dict_of_items {V} (items : list (string * V)) : gmap string V :=
  list_to_map items.

(** The dictionary [{"routes": ..., "coordinates": ...}] returned by
    [get_full_routes]. *)
Record FullRoutes := {
  fr_routes : gmap string Route;
  fr_coordinates : gmap string (list float)
}.

(** An item [{"id": ..., "name": ...}] of the list returned by
    [list_routes]. *)
Record RouteEntry := {
  entry_id : string;
  entry_name : string
}.

(** The dictionary [{"routes": [...]}] returned by [list_routes]. *)
Record RouteList := {
  rl_routes : list RouteEntry
}.

(** Lines 53-59. *)
Definition get_full_routes (ROUTES : gmap string Route)
    (COORDINATES : gmap string Coordinate) : FullRoutes :=
  let coords_serializable := list_of_pair <$> COORDINATES in
  {| fr_routes := ROUTES;
     fr_coordinates := coords_serializable |}.

(** Lines 64-71, on the items of [ROUTES] in the order the dictionary
    yields them. *)
Definition list_routes (ROUTES_items : list (string * Route)) : RouteList :=
  {| rl_routes :=
       (λ '(k, v), {| entry_id := k; entry_name := name v |}) <$> ROUTES_items |}.

(** ** Finite floats *)

(** Neither a NaN nor an infinity. *)
Definition finite (x : spec_float) : bool :=
  match x with
  | S754_nan | S754_infinity _ => false
  | _ => true
  end.

(** A zero, or a finite float of magnitude at most [2^k]. *)
Definition at_most_pow2 (k : Z) (x : spec_float) : Prop :=
  match x with
  | S754_zero _ => True
  | S754_finite _ m e => e ≤ k ∧ Z.pos m ≤ 2 ^ (k - e)
  | _ => False
  end.

(** A positive float below [2^-4]: its exponent is at most -57 for a
    mantissa of at most 53 digits. *)
Definition small_positive (x : spec_float) : Prop :=
  match x with
  | S754_finite false m e => Z.pos (digits2_pos m) ≤ 53 ∧ e ≤ -57
  | _ => False
  end.

(** A finite float of magnitude at least [2^k], or an infinity. *)
Definition at_least_pow2 (k : Z) (x : spec_float) : Prop :=
  match x with
  | S754_finite _ m e => e ≤ k → 2 ^ (k - e) ≤ Z.pos m
  | S754_infinity _ => True
  | _ => False
  end.

(** Not below zero: a NaN, a zero, or a float whose sign bit is clear. *)
Definition not_negative (x : spec_float) : Prop :=
  match x with
  | S754_infinity true | S754_finite true _ _ => False
  | _ => True
  end.

(** Two positive floats, the second at least twice the first. *)
Definition twice_le (x y : spec_float) : Prop :=
  match x, y with
  | S754_finite false mx ex, S754_finite false my ey =>
      ex ≤ ey ∧ 2 * Z.pos mx ≤ Z.pos my * 2 ^ (ey - ex)
  | _, _ => False
  end.

(** A number that is at least zero: a zero, or a float that is not a NaN
    and whose sign bit is clear. *)
Definition at_least_zero (x : spec_float) : Prop :=
  match x with
  | S754_zero _ | S754_infinity false | S754_finite false _ _ => True
  | _ => False
  end.

(** ** A second small world *)

(** The table of the first world as the items of a dictionary, with a
    fourth route that has no stations. *)
Definition empty_route : Route := {| name := "nowhere"; stations := [] |}.

Definition route_items : list (string * Route) :=
  [("1", demo_route); ("2", solo_route); ("3", broken_route); ("4", empty_route)].

Definition empty_request : EmissionRequest :=
  {| route_id := "4"; weight_tons := 10%float; container := "dfe" |}.

Definition infinite_request : EmissionRequest :=
  {| route_id := "1"; weight_tons := infinity; container := "dfe" |}.

Definition unknown_request : EmissionRequest :=
  {| route_id := "9"; weight_tons := 10%float; container := "dfe" |}.

(** The locals of the scenario of the first world. *)
Definition demo_locals : Locals :=
  locals_of demo_haversine demo_request demo_route
            [(0%float, 0%float); (0%float, 1%float)] 0.018%float 0.045%float.

(** * Part III: lemmas and theorems *)

(** ** Binary64 facts *)

(** Lemmas on the standard library's specification of binary64, used to
    bound the quotient [saved / 22]. *)
Module Binary64.

Lemma digits2_pos_size (p : positive) : digits2_pos p = Pos.size p.
Proof. induction p; simpl; congruence. Qed.

(** A non-negative integer below [2^k] has at most [k] binary digits. *)
Lemma Zdigits2_le (m k : Z) : 0 ≤ m → 0 ≤ k → m < 2 ^ k → Zdigits2 m ≤ k.
Proof.
  intros Hm Hk Hlt. destruct m as [|p|p]; simpl; [lia| |lia].
  rewrite digits2_pos_size.
  destruct (Z.le_gt_cases (Z.pos (Pos.size p)) k) as [|Hgt]; [done|exfalso].
  pose proof (Pos.size_le p) as Hle.
  assert (2 ^ (k + 1) ≤ 2 ^ Z.pos (Pos.size p)) as Hpow
    by (apply Z.pow_le_mono_r; lia).
  rewrite Z.pow_add_r in Hpow by lia.
  assert (Z.pos (2 ^ Pos.size p) = 2 ^ Z.pos (Pos.size p)) as Heq
    by (rewrite Pos2Z.inj_pow; reflexivity).
  assert (Z.pos (2 ^ Pos.size p) ≤ Z.pos p~0) by (apply Pos2Z.pos_le_pos; exact Hle).
  lia.
Qed.

(** A positive integer is below two to the number of its digits. *)
Lemma Zdigits2_gt (p : positive) : Z.pos p < 2 ^ Z.pos (digits2_pos p).
Proof.
  rewrite digits2_pos_size. pose proof (Pos.size_gt p) as Hgt.
  rewrite <- Pos2Z.inj_pow. apply Pos2Z.pos_lt_pos. exact Hgt.
Qed.

Lemma shr_1_div2 (r : shr_record) :
  0 ≤ shr_m r → shr_m (shr_1 r) = shr_m r / 2.
Proof.
  destruct r as [m b s]; simpl. intros Hm.
  destruct m as [|[p|p|]|p]; cbn [shr_m]; try lia; try reflexivity.
  - apply Z.div_unique with (r := 1); lia.
  - apply Z.div_unique with (r := 0); lia.
Qed.

Lemma pow2_xO (p : positive) : 2 ^ Z.pos p~0 = 2 ^ Z.pos p * 2 ^ Z.pos p.
Proof. rewrite <- Z.pow_add_r by lia. f_equal. lia. Qed.

Lemma pow2_xI (p : positive) : 2 ^ Z.pos p~1 = 2 * (2 ^ Z.pos p * 2 ^ Z.pos p).
Proof.
  rewrite <- Z.pow_add_r by lia.
  replace (Z.pos p~1) with (Z.succ (Z.pos p + Z.pos p)) by lia.
  rewrite Z.pow_succ_r by lia. reflexivity.
Qed.

(** Shifting right [p] times divides the mantissa by [2^p]. *)
Lemma iter_shr_1_div (p : positive) (r : shr_record) :
  0 ≤ shr_m r → shr_m (SpecFloat.iter_pos shr_1 p r) = shr_m r / 2 ^ Z.pos p.
Proof.
  revert r. induction p as [p IH|p IH|]; intros r Hm; simpl SpecFloat.iter_pos.
  - assert (0 < 2 ^ Z.pos p) as Hp by (apply Z.pow_pos_nonneg; lia).
    assert (0 ≤ shr_m (shr_1 r)) as H1
      by (rewrite shr_1_div2 by done; apply Z.div_pos; lia).
    assert (0 ≤ shr_m (SpecFloat.iter_pos shr_1 p (shr_1 r))) as H2
      by (rewrite IH by done; apply Z.div_pos; done).
    rewrite IH by done. rewrite IH by done. rewrite shr_1_div2 by done.
    rewrite !Z.div_div by lia. rewrite pow2_xI. reflexivity.
  - assert (0 < 2 ^ Z.pos p) as Hp by (apply Z.pow_pos_nonneg; lia).
    assert (0 ≤ shr_m (SpecFloat.iter_pos shr_1 p r)) as H2
      by (rewrite IH by done; apply Z.div_pos; done).
    rewrite IH by done. rewrite IH by done.
    rewrite !Z.div_div by lia. rewrite pow2_xO. reflexivity.
  - rewrite shr_1_div2 by done. reflexivity.
Qed.

Lemma shr_m_of_loc (m : Z) (l : location) : shr_m (shr_record_of_loc m l) = m.
Proof. destruct l as [|[]]; reflexivity. Qed.

(** [shr_fexp] moves the exponent to [max e (fexp (digits m + e))] and
    divides the mantissa accordingly. *)
Lemma shr_fexp_spec (m e : Z) (l : location) :
  0 ≤ m →
  snd (shr_fexp prec emax m e l) = Z.max e (fexp prec emax (Zdigits2 m + e)) ∧
  shr_m (fst (shr_fexp prec emax m e l)) = m / 2 ^ (snd (shr_fexp prec emax m e l) - e).
Proof.
  intros Hm. unfold shr_fexp, shr.
  destruct (fexp prec emax (Zdigits2 m + e) - e) as [|p|p] eqn:Hn; cbn [fst snd].
  - rewrite Z.sub_diag, shr_m_of_loc, Z.div_1_r. lia.
  - rewrite iter_shr_1_div by (rewrite shr_m_of_loc; done).
    rewrite shr_m_of_loc. replace (e + Z.pos p - e) with (Z.pos p) by lia. lia.
  - rewrite Z.sub_diag, shr_m_of_loc, Z.div_1_r. lia.
Qed.

Lemma round_nearest_even_bounds (m : Z) (l : location) :
  m ≤ round_nearest_even m l ≤ m + 1.
Proof. destruct l as [|[]]; simpl; try destruct (Z.even m); lia. Qed.

(** The results that [binary_round_aux] can give carry the sign asked
    for. *)
Lemma binary_round_aux_cases (s : bool) (m e : Z) (l : location) :
  binary_round_aux prec emax s m e l = S754_nan ∨
  binary_round_aux prec emax s m e l = S754_zero s ∨
  binary_round_aux prec emax s m e l = S754_infinity s ∨
  ∃ m' e', binary_round_aux prec emax s m e l = S754_finite s m' e'.
Proof.
  unfold binary_round_aux.
  destruct (shr_fexp prec emax m e l) as [r1 e1].
  destruct (shr_fexp prec emax _ e1 loc_Exact) as [r2 e2].
  destruct (shr_m r2); [| destruct (e2 <=? emax - prec) |]; eauto 6.
Qed.

Lemma fexp_binary64 (z : Z) : fexp prec emax z = Z.max (z - 53) (-1074).
Proof. reflexivity. Qed.
(** Rounding to binary64 a magnitude [m * 2^e] below one half gives at
    most one half: one half is itself a float, and a multiple of every
    smaller unit in the last place. *)
Lemma binary_round_aux_at_most_half (s : bool) (m e : Z) (l : location) :
  0 ≤ m → e ≤ -1 → m < 2 ^ (-1 - e) →
  at_most_half (binary_round_aux prec emax s m e l).
Proof.
  intros Hm He Hlt. unfold binary_round_aux.
  pose proof (shr_fexp_spec m e l Hm) as [He1 Hm1].
  destruct (shr_fexp prec emax m e l) as [r1 e1]. cbn [fst snd] in He1, Hm1.
  pose proof (Zdigits2_le m (-1 - e) Hm ltac:(lia) Hlt) as Hd.
  rewrite fexp_binary64 in He1.
  assert (e ≤ e1 ≤ -1) as [Hee1 He1' ] by lia.
  assert (0 < 2 ^ (e1 - e)) as Hp1 by (apply Z.pow_pos_nonneg; lia).
  assert (0 < 2 ^ (-1 - e1)) as Hq1 by (apply Z.pow_pos_nonneg; lia).
  assert (2 ^ (-1 - e) = 2 ^ (e1 - e) * 2 ^ (-1 - e1)) as Hsplit1
    by (rewrite <- Z.pow_add_r by lia; f_equal; lia).
  assert (0 ≤ shr_m r1 < 2 ^ (-1 - e1)) as [Hr1 Hr1' ].
  { rewrite Hm1. split; [apply Z.div_pos; lia|].
    apply Z.div_lt_upper_bound; lia. }
  pose proof (round_nearest_even_bounds (shr_m r1) (loc_of_shr_record r1)) as Hrnd.
  set (m2 := round_nearest_even (shr_m r1) (loc_of_shr_record r1)) in *.
  assert (0 ≤ m2) as Hm2 by lia.
  pose proof (shr_fexp_spec m2 e1 loc_Exact Hm2) as [He2 Hm3].
  destruct (shr_fexp prec emax m2 e1 loc_Exact) as [r2 e2]. cbn [fst snd] in He2, Hm3.
  assert (m2 < 2 ^ (- e1)) as Hm2lt.
  { replace (- e1) with (Z.succ (-1 - e1)) by lia. rewrite Z.pow_succ_r by lia. lia. }
  pose proof (Zdigits2_le m2 (- e1) Hm2 ltac:(lia) Hm2lt) as Hd2.
  rewrite fexp_binary64 in He2.
  assert (e1 ≤ e2 ≤ -1) as [He12 He2' ] by lia.
  destruct (shr_m r2) as [|p|p] eqn:Hr2; [exact I| |exact I].
  destruct (e2 <=? emax - prec); [|exact I].
  simpl. split; [done|].
  assert (0 < 2 ^ (e2 - e1)) as Hp2 by (apply Z.pow_pos_nonneg; lia).
  assert (2 ^ (-1 - e1) = 2 ^ (e2 - e1) * 2 ^ (-1 - e2)) as Hsplit2
    by (rewrite <- Z.pow_add_r by lia; f_equal; lia).
  rewrite Hm3. apply Z.div_le_upper_bound; lia.
Qed.

Lemma Prim2SF_11 : Prim2SF 11 = eleven.
Proof. reflexivity. Qed.

Lemma Prim2SF_22 : Prim2SF 22 = twenty_two.
Proof. reflexivity. Qed.

(** A positive float below 11 divided by 22 is at most one half. *)
Lemma SFdiv_22_at_most_half (m : positive) (e : Z) :
  Z.pos (digits2_pos m) ≤ 53 →
  e < -49 ∨ (e = -49 ∧ Z.pos m < 6192449487634432) →
  at_most_half (SFdiv prec emax (S754_finite false m e) twenty_two).
Proof.
  intros Hdig Hlt. unfold twenty_two, SFdiv, SFdiv_core_binary.
  set (e' := Z.min _ (e - -48)).
  assert (e' ≤ e + 48) as He' by (subst e'; lia).
  set (m' := match e - -48 - e' with Z.pos _ => _ | 0 => _ | Z.neg _ => _ end).
  assert (m' = Z.pos m * 2 ^ (e + 48 - e')) as Hm'.
  { subst m'. destruct (e - -48 - e') as [|p|p] eqn:Hs.
    - replace (e + 48 - e') with 0 by lia. lia.
    - rewrite Z.shiftl_mul_pow2 by lia. f_equal. f_equal. lia.
    - lia. }
  clearbody m' e'.
  destruct (Z.div_eucl m' 6192449487634432) as [q r] eqn:Hde.
  assert (q = m' / 6192449487634432) as Hq
    by (unfold Z.div; rewrite Hde; reflexivity).
  assert (0 < 2 ^ (e + 48 - e')) as Hp by (apply Z.pow_pos_nonneg; lia).
  apply binary_round_aux_at_most_half.
  - rewrite Hq. apply Z.div_pos; lia.
  - lia.
  - rewrite Hq. apply Z.div_lt_upper_bound; [lia|].
    pose proof (Zdigits2_gt m) as Hgt.
    assert (2 ^ Z.pos (digits2_pos m) ≤ 2 ^ 53) as Hle53
      by (apply Z.pow_le_mono_r; lia).
    assert (2 ^ (-1 - e') = 2 ^ (e + 48 - e') * 2 ^ (-49 - e)) as Hsplit
      by (rewrite <- Z.pow_add_r by lia; f_equal; lia).
    rewrite Hm', Hsplit.
    assert (Z.pos m < 6192449487634432 * 2 ^ (-49 - e)) as Hbound.
    { destruct Hlt as [Hlt|[-> Hlt]].
      - assert (2 ^ 1 ≤ 2 ^ (-49 - e)) by (apply Z.pow_le_mono_r; lia).
        change (2 ^ 53) with 9007199254740992 in Hle53.
        change (2 ^ 1) with 2 in *. lia.
      - change (2 ^ (-49 - -49)) with 1. lia. }
    nia.
Qed.

End Binary64.

(** ** The tree count *)

Module Trees.
Import Binary64.

Lemma round_half_even_nonneg (n d : Z) :
  0 ≤ n → 0 < d → 0 ≤ Py.round_half_even n d.
Proof.
  intros Hn Hd. unfold Py.round_half_even.
  pose proof (Z.div_pos n d Hn Hd).
  destruct (2 * (n mod d) ?= d); [destruct (Z.even _)| |]; lia.
Qed.

Lemma numerator_nonneg (m : positive) (e : Z) : 0 ≤ Py.numerator m e.
Proof.
  unfold Py.numerator.
  assert (0 < 2 ^ Z.max e 0) by (apply Z.pow_pos_nonneg; lia). lia.
Qed.

Lemma denominator_pos (e : Z) : 0 < Py.denominator e.
Proof. unfold Py.denominator. apply Z.pow_pos_nonneg; lia. Qed.

(** A magnitude of at most one half rounds to the integer 0; exactly one
    half is a tie, and 0 is even. *)
Lemma round_half_even_at_most_half (m : positive) (e : Z) :
  e ≤ -1 → Z.pos m ≤ 2 ^ (-1 - e) →
  Py.round_half_even (Py.numerator m e) (Py.denominator e) = 0.
Proof.
  intros He Hm. unfold Py.round_half_even, Py.numerator, Py.denominator.
  rewrite (Z.max_r e 0), (Z.max_l (- e) 0) by lia.
  change (2 ^ 0) with 1. rewrite Z.mul_1_r.
  assert (2 ^ (- e) = 2 * 2 ^ (-1 - e)) as Hpow.
  { replace (- e) with (Z.succ (-1 - e)) by lia. apply Z.pow_succ_r. lia. }
  assert (0 < 2 ^ (-1 - e)) by (apply Z.pow_pos_nonneg; lia).
  rewrite Z.mod_small, Z.div_small by lia.
  destruct (2 * Z.pos m ?= 2 ^ (- e)) eqn:Hc; [reflexivity|reflexivity|].
  apply Z.compare_gt_iff in Hc. lia.
Qed.

(** [round] of a float of magnitude at most one half is 0. *)
Lemma round_at_most_half (x : float) (n : Z) :
  at_most_half (Prim2SF x) → Py.round x = inr n → n = 0.
Proof.
  unfold Py.round. destruct (Prim2SF x) as [s|s| |s m e]; simpl; intros Hh Hr;
    try discriminate; injection Hr as <-; [reflexivity|].
  destruct Hh as [He Hm]. rewrite round_half_even_at_most_half by done.
  destruct s; reflexivity.
Qed.

(** A float whose sign bit is set rounds to an integer that is not
    positive. *)
Lemma round_negative (x : float) (n : Z) :
  (Prim2SF x = S754_nan ∨ Prim2SF x = S754_zero true ∨
   Prim2SF x = S754_infinity true ∨ ∃ m e, Prim2SF x = S754_finite true m e) →
  Py.round x = inr n → n ≤ 0.
Proof.
  unfold Py.round. intros [->|[->|[->|(m & e & ->)]]] Hr; try discriminate;
    injection Hr as <-; [lia|]. simpl.
  pose proof (round_half_even_nonneg _ _ (numerator_nonneg m e) (denominator_pos e)).
  lia.
Qed.

(** The mantissa of a binary64 float has at most 53 digits. *)
Lemma valid_binary_digits (s : bool) (m : positive) (e : Z) :
  valid_binary (S754_finite s m e) = true → Z.pos (digits2_pos m) ≤ 53.
Proof.
  unfold SpecFloat.valid_binary, bounded, canonical_mantissa.
  rewrite fexp_binary64. intros [Hc _]%andb_prop.
  apply Z.eqb_eq in Hc. lia.
Qed.

(** [round(saved / 22)] is not positive when [saved <= 11]. *)
Lemma round_quotient_le_11 (saved : float) (n : Z) :
  (saved <=? 11)%float = true → Py.round (saved / 22)%float = inr n → n ≤ 0.
Proof.
  intros Hle Hr. rewrite leb_spec, Prim2SF_11 in Hle.
  pose proof (Prim2SF_valid saved) as Hv.
  pose proof (div_spec saved 22) as Hd. rewrite Prim2SF_22 in Hd.
  unfold SF64div in Hd.
  destruct (Prim2SF saved) as [s|s| |s m e] eqn:Hx.
  - unfold Py.round in Hr. rewrite Hd in Hr. cbn [SFdiv twenty_two] in Hr.
    injection Hr as <-. lia.
  - destruct s; [|discriminate Hle].
    unfold Py.round in Hr. rewrite Hd in Hr. discriminate Hr.
  - discriminate Hle.
  - destruct s.
    + apply (round_negative (saved / 22)%float n); [|done].
      rewrite Hd. unfold twenty_two, SFdiv.
      destruct (SFdiv_core_binary _ _ _ _ _ _) as [[q e'] l].
      exact (binary_round_aux_cases true q e' l).
    + destruct (decide (e = -49 ∧ m = 6192449487634432%positive)) as [[-> ->]|Hne].
      * unfold Py.round in Hr. rewrite Hd in Hr.
        vm_compute in Hr. injection Hr as <-. lia.
      * assert (n = 0) as ->; [|lia].
        apply (round_at_most_half (saved / 22)%float n); [|done].
        rewrite Hd. apply SFdiv_22_at_most_half.
        { eapply valid_binary_digits, Hv. }
        unfold SFleb, SFcompare, eleven in Hle.
        destruct (e ?= -49) eqn:Hc.
        -- apply Z.compare_eq in Hc. subst e. right. split; [reflexivity|].
           rewrite Pos.compare_cont_spec in Hle.
           destruct (Pos.compare_spec m 6192449487634432) as [Hm|Hm|Hm].
           ++ exfalso. apply Hne. split; [reflexivity|exact Hm].
           ++ exact (Pos2Z.pos_lt_pos _ _ Hm).
           ++ discriminate Hle.
        -- apply Z.compare_lt_iff in Hc. left. done.
        -- discriminate.
Qed.

(** [round(saved / 22)] is not positive when [saved < 0]. *)
Lemma round_quotient_negative (saved : float) (n : Z) :
  (saved <? 0)%float = true → Py.round (saved / 22)%float = inr n → n ≤ 0.
Proof.
  intros Hlt Hr. rewrite ltb_spec in Hlt.
  change (Prim2SF 0) with (S754_zero false) in Hlt.
  apply (round_negative (saved / 22)%float n); [|done].
  rewrite div_spec, Prim2SF_22. unfold SF64div.
  destruct (Prim2SF saved) as [s|s| |s m e] eqn:Hx; try discriminate Hlt.
  - destruct s; [|discriminate Hlt]. right. right. left. reflexivity.
  - destruct s; [|discriminate Hlt]. unfold twenty_two, SFdiv.
    destruct (SFdiv_core_binary _ _ _ _ _ _) as [[q e'] l].
    exact (binary_round_aux_cases true q e' l).
Qed.

End Trees.

(** ** Facts on the endpoint *)

Lemma bind_inr {A B} (c : Exc A) (k : A → Exc B) (b : B) :
  bind c k = inr b → ∃ a, c = inr a ∧ k a = inr b.
Proof. destruct c as [e|a]; simpl; [discriminate|eauto]. Qed.

Lemma bind_inl {A B} (c : Exc A) (k : A → Exc B) (e : exn) :
  bind c k = inl e → c = inl e ∨ ∃ a, c = inr a ∧ k a = inl e.
Proof. destruct c as [e'|a]; simpl; [intros [= ->]; auto|eauto]. Qed.

(** The container check of line 80. *)
Lemma in_tuple_containers (c : string) :
  Py.in_tuple c ["dfe"; "sfe"] = true ↔ c = "dfe" ∨ c = "sfe".
Proof.
  unfold Py.in_tuple. simpl. rewrite !orb_true_iff, !String.eqb_eq.
  intuition discriminate.
Qed.

(** A weight above zero passes the weight check. *)
Lemma positive_not_le_zero (w : float) :
  (0 <? w)%float = true → (w <=? 0)%float = false.
Proof.
  rewrite ltb_spec, leb_spec. change (Prim2SF 0) with (S754_zero false).
  unfold SFltb, SFleb, SFcompare.
  destruct (Prim2SF w) as [s|[]| |[] m e]; congruence.
Qed.


(** A finite weight that passes the weight check times 0.0 is 0.0. *)
Lemma mul_zero_finite (w : float) :
  isfinite w = true → (w <=? 0)%float = false → (w * 0)%float = 0%float.
Proof.
  unfold isfinite. rewrite leb_spec. change (Prim2SF 0) with (S754_zero false).
  intros Hfin Hle. apply Prim2SF_inj. rewrite mul_spec.
  change (Prim2SF 0) with (S754_zero false). unfold SF64mul.
  destruct (Prim2SF w) as [s|s| |[] m e]; try discriminate; reflexivity.
Qed.

Section EngineFacts.

Variable ROUTES : gmap string Route.
Variable COORDINATES : gmap string Coordinate.
Variable haversine : float → float → float → float → float.

Local Abbreviation body := (loop_body COORDINATES haversine).
Local Abbreviation loop := (for_enumerate COORDINATES haversine).
Local Abbreviation locals := (calculate_locals ROUTES COORDINATES haversine).

(** An iteration on a station that has a coordinate appends it; from the
    second station on it adds the leg from the previous point. The index
    [coords[i - 1]] is in range because [coords] has [i] items before the
    append. *)
Lemma loop_body_located (i : nat) (s : string) (d : float) (cs : list Coordinate) (c : Coordinate) :
  length cs = i → located COORDINATES s c →
  body i s (d, cs) =
    inr (match last cs with
         | Some prev => (d + haversine (fst prev) (snd prev) (fst c) (snd c))%float
         | None => d
         end, cs ++ [c]).
Proof.
  intros Hlen Hc. unfold located in Hc. unfold loop_body, Py.contains, Py.getitem.
  rewrite Hc. destruct c as [lat lon]. simpl.
  destruct cs as [|c0 cs0] using rev_ind.
  - subst i. reflexivity.
  - rewrite last_snoc. rewrite length_app in Hlen. simpl in Hlen.
    assert ((0 <? i)%nat = true) as -> by (apply Nat.ltb_lt; lia).
    unfold Py.index.
    rewrite lookup_app_l by (rewrite length_app; simpl; lia).
    replace (i - 1)%nat with (length cs0 + 0)%nat by lia.
    rewrite lookup_app_r, Nat.add_comm, Nat.add_sub by lia.
    destruct c0 as [lat1 lon1]. reflexivity.
Qed.

Lemma loop_body_missing (i : nat) (s : string) (st : float * list Coordinate) :
  COORDINATES !! s = None →
  body i s st = inl (HTTPException 500 (no_coordinates +:+ s)).
Proof.
  intros Hc. destruct st as [d cs]. unfold loop_body, Py.contains. rewrite Hc.
  reflexivity.
Qed.

Lemma for_enumerate_cons (i : nat) (s : string) (rest : list string) (st : float * list Coordinate) :
  loop i (s :: rest) st = bind (body i s st) (loop (S i) rest).
Proof. reflexivity. Qed.

(** The loop from a non-empty [coords]: every leg is added in turn. *)
Lemma for_enumerate_from (sts : list string) :
  ∀ (pts cs : list Coordinate) (prev : Coordinate) (d : float),
  last cs = Some prev → Forall2 (located COORDINATES) sts pts →
  loop (length cs) sts (d, cs) = inr (sum_from d (legs haversine prev pts), cs ++ pts).
Proof.
  induction sts as [|s sts IH]; intros pts cs prev d Hlast Hall;
    inversion Hall as [|? c ? pts' Hc Hall' ]; subst.
  - simpl. rewrite app_nil_r. reflexivity.
  - rewrite for_enumerate_cons, (loop_body_located _ s d cs c eq_refl Hc), Hlast.
    cbn [bind legs].
    specialize (IH pts' (cs ++ [c]) c
      (d + haversine (fst prev) (snd prev) (fst c) (snd c))%float
      (last_snoc _ _) Hall').
    rewrite length_app, Nat.add_comm in IH. simpl in IH.
    rewrite IH, <- app_assoc. reflexivity.
Qed.

(** The whole loop on stations that all have coordinates. *)
Lemma for_enumerate_located (sts : list string) (pts : list Coordinate) :
  Forall2 (located COORDINATES) sts pts →
  loop 0 sts (0%float, []) = inr (path_distance haversine pts, pts).
Proof.
  intros Hall. inversion Hall as [|s c sts' pts' Hc Hall' ]; subst.
  - reflexivity.
  - rewrite for_enumerate_cons, (loop_body_located 0 s 0%float [] c eq_refl Hc).
    cbn [bind last].
    exact (for_enumerate_from sts' pts' [c] c 0%float eq_refl Hall').
Qed.

(** The loop stops at the first station without a coordinate. *)
Lemma for_enumerate_missing (ok : list string) :
  ∀ (pts cs : list Coordinate) (d : float) (s : string) (rest : list string),
  Forall2 (located COORDINATES) ok pts → COORDINATES !! s = None →
  loop (length cs) (ok ++ s :: rest) (d, cs)
  = inl (HTTPException 500 (no_coordinates +:+ s)).
Proof.
  induction ok as [|s0 ok IH]; intros pts cs d s rest Hall Hnone;
    cbn [app]; rewrite for_enumerate_cons.
  - rewrite loop_body_missing by done. reflexivity.
  - inversion Hall as [|? c ? pts' Hc Hall' ]; subst.
    rewrite (loop_body_located _ s0 d cs c eq_refl Hc). cbn [bind].
    specialize (IH pts' (cs ++ [c])
      (match last cs with
       | Some prev => (d + haversine (fst prev) (snd prev) (fst c) (snd c))%float
       | None => d
       end) s rest Hall' Hnone).
    rewrite length_app, Nat.add_comm in IH. exact IH.
Qed.

(** Either every station has a coordinate, or there is a first one that
    has none. *)
Lemma located_or_missing (sts : list string) :
  (∃ pts, Forall2 (located COORDINATES) sts pts) ∨
  (∃ ok s rest pts, sts = ok ++ s :: rest ∧
     Forall2 (located COORDINATES) ok pts ∧ COORDINATES !! s = None).
Proof.
  induction sts as [|s sts IH].
  - left. exists []. constructor.
  - destruct (COORDINATES !! s) as [c|] eqn:Hc.
    + destruct IH as [[pts Hall]|(ok & s' & rest & pts & -> & Hall & Hnone)].
      * left. exists (c :: pts). by constructor.
      * right. exists (s :: ok), s', rest, (c :: pts).
        split; [reflexivity|]. split; [by constructor|done].
    + right. exists [], s, sts, []. split; [reflexivity|]. split; [constructor|done].
Qed.

Lemma located_not_missing (sts : list string) (pts : list Coordinate) (s : string) :
  Forall2 (located COORDINATES) sts pts → s ∈ sts → COORDINATES !! s = None → False.
Proof.
  intros Hall Hin Hnone. apply list_elem_of_In in Hin.
  induction Hall as [|s' c sts' pts' Hc _ IH]; simpl in Hin; [done|].
  destruct Hin as [->|Hin]; [|auto]. unfold located in Hc. congruence.
Qed.

(** *** The emission factors *)

Lemma getitem_rail :
  Py.getitem EMISSION_FACTORS "rail"
  = inr {[ "dfe" := 0.018%float; "sfe" := 0.015%float ]}.
Proof. unfold Py.getitem, EMISSION_FACTORS. rewrite lookup_insert_eq. reflexivity. Qed.

Lemma getitem_ship_plus :
  Py.getitem EMISSION_FACTORS "ship_plus"
  = inr {[ "dfe" := 0.045%float; "sfe" := 0.038%float ]}.
Proof.
  unfold Py.getitem, EMISSION_FACTORS.
  rewrite lookup_insert_ne by discriminate. rewrite lookup_singleton_eq. reflexivity.
Qed.

Lemma getitem_factor (mode : string) (t : gmap string float) (c : string) :
  Py.getitem EMISSION_FACTORS mode = inr t →
  Py.getitem t c = match factor mode c with
                   | Some f => inr f
                   | None => inl (KeyError c)
                   end.
Proof.
  unfold Py.getitem, factor. destruct (EMISSION_FACTORS !! mode) as [t'|]; [|discriminate].
  intros [= ->]. simpl. destruct (t !! c); reflexivity.
Qed.

(** The four entries of the table. *)
Lemma factor_table :
  factor "rail" "dfe" = Some 0.018%float ∧ factor "rail" "sfe" = Some 0.015%float ∧
  factor "ship_plus" "dfe" = Some 0.045%float ∧ factor "ship_plus" "sfe" = Some 0.038%float.
Proof. repeat split; vm_compute; reflexivity. Qed.

Lemma factor_containers (c : string) :
  c = "dfe" ∨ c = "sfe" → is_Some (factor "rail" c) ∧ is_Some (factor "ship_plus" c).
Proof.
  destruct factor_table as (H1 & H2 & H3 & H4).
  intros [->| ->]; split; eexists; eassumption.
Qed.

Lemma calculate_locals_outcome (req : EmissionRequest) :
  outcome ROUTES COORDINATES haversine req (locals req).
Proof.
  unfold calculate_locals, Py.contains.
  destruct (ROUTES !! route_id req) as [route|] eqn:Hroute; cbn [negb];
    [|by apply unknown_route].
  destruct (Py.in_tuple (container req) ["dfe"; "sfe"]) eqn:Hcont; cbn [negb].
  2:{ apply unknown_container; [by rewrite Hroute|].
      rewrite <- in_tuple_containers. congruence. }
  apply in_tuple_containers in Hcont.
  destruct (weight_tons req <=? 0)%float eqn:Hw.
  { apply non_positive_weight; [by rewrite Hroute|done..]. }
  assert (validated ROUTES req) as Hval by (split; [by rewrite Hroute|done]).
  unfold Py.getitem at 1. rewrite Hroute. cbn [bind ret].
  destruct (located_or_missing (stations route))
    as [[pts Hall]|(ok & s & rest & pts & Hst & Hall & Hnone)].
  - rewrite (for_enumerate_located _ _ Hall). cbn [bind].
    destruct (factor_containers _ Hcont) as [[rf Hrf] [sf Hsf]].
    rewrite getitem_rail. cbn [bind].
    rewrite (getitem_factor "rail" _ _ getitem_rail), Hrf. cbn [bind].
    rewrite getitem_ship_plus. cbn [bind].
    rewrite (getitem_factor "ship_plus" _ _ getitem_ship_plus), Hsf. cbn [bind].
    by apply computed.
  - rewrite Hst.
    pose proof (for_enumerate_missing ok pts [] 0%float s rest Hall Hnone) as Hloop.
    cbn [length] in Hloop. rewrite Hloop. cbn [bind]. by eapply missing_coordinate.
Qed.

End EngineFacts.

(** ** The tree count and the response *)

Lemma max_is_Zmax (a b : Z) : Py.max a b = Z.max a b.
Proof. unfold Py.max. destruct (a <? b) eqn:H; [apply Z.ltb_lt in H|apply Z.ltb_ge in H]; lia. Qed.

Lemma round_inl (x : float) (e : exn) :
  Py.round x = inl e → e = ValueError ∨ e = OverflowError.
Proof.
  unfold Py.round. destruct (Prim2SF x); intros [= <-]; auto.
Qed.

Lemma ltb_leb (x y : float) : (x <? y)%float = true → (x <=? y)%float = true.
Proof.
  rewrite ltb_spec, leb_spec. unfold SFltb, SFleb.
  destruct (SFcompare _ _) as [[]|]; congruence.
Qed.

(** The nearest integer is within one half of the fraction. *)
Lemma round_half_even_nearest (n d : Z) :
  0 < d → Z.abs (2 * n - 2 * d * Py.round_half_even n d) ≤ d.
Proof.
  intros Hd. unfold Py.round_half_even.
  pose proof (Z.div_mod n d ltac:(lia)) as Hdm.
  pose proof (Z.mod_pos_bound n d Hd) as Hb.
  generalize dependent (n mod d). generalize dependent (n / d).
  intros q r Hdm Hb. apply Z.abs_le.
  destruct (Z.compare_spec (2 * r) d); try destruct (Z.even q); nia.
Qed.

(** [round(x, 1)] of a finite [x] is the float made from a whole number
    [k] of tenths that lies within half a tenth of the magnitude of [x]. *)
Lemma round_ndigits_tenths (x : float) (s : bool) (m : positive) (e : Z) :
  Prim2SF x = S754_finite s m e →
  ∃ k, 0 ≤ k ∧
       Z.abs (2 * (Py.numerator m e * 10) - 2 * Py.denominator e * k) ≤ Py.denominator e ∧
       Py.round_ndigits x 1 = SF2Prim (Py.float_of_ratio s k 10).
Proof.
  intros Hx. unfold Py.round_ndigits. rewrite Hx.
  change (10 ^ Z.of_nat 1) with 10.
  exists (Py.round_half_even (Py.numerator m e * 10) (Py.denominator e)).
  pose proof (Trees.numerator_nonneg m e) as Hn.
  pose proof (Trees.denominator_pos e) as Hd.
  split; [apply Trees.round_half_even_nonneg; lia|].
  split; [apply round_half_even_nearest; done|reflexivity].
Qed.

Lemma respond_inr (l : Locals) (r : Response) :
  respond l = inr r →
  ∃ n origin destination,
    Py.round (l_saved l / 22)%float = inr n ∧
    head (stations (l_route l)) = Some origin ∧
    last (stations (l_route l)) = Some destination ∧
    r = response_of l n origin destination.
Proof.
  unfold respond. intros H.
  apply bind_inr in H as (n & Hn & H).
  apply bind_inr in H as (origin & Ho & H).
  apply bind_inr in H as (destination & Hd & H).
  exists n, origin, destination. split; [done|].
  unfold Py.index in Ho. rewrite <- head_lookup in Ho.
  unfold Py.index_last in Hd.
  destruct (head _) as [o|]; [|discriminate]. injection Ho as ->.
  destruct (last _) as [t|]; [|discriminate]. injection Hd as ->.
  repeat split. unfold ret in H. injection H as <-.
  unfold response_of. rewrite max_is_Zmax. reflexivity.
Qed.

Lemma respond_inl (l : Locals) (e : exn) :
  respond l = inl e → e = ValueError ∨ e = OverflowError ∨ e = IndexError.
Proof.
  unfold respond. intros H.
  apply bind_inl in H as [H|(n & _ & H)]; [apply round_inl in H; tauto|].
  apply bind_inl in H as [H|(o & _ & H)].
  { unfold Py.index in H. destruct (_ !! _); [discriminate|]. injection H as <-. auto. }
  apply bind_inl in H as [H|(t & _ & H)]; [|discriminate].
  unfold Py.index_last in H. destruct (last _); [discriminate|]. injection H as <-. auto.
Qed.

(** ** Properties of calculate_emissions *)

Section Claims.

Variable ROUTES : gmap string Route.
Variable COORDINATES : gmap string Coordinate.
Variable haversine : float → float → float → float → float.

(** A successful call went through [calculate_locals] and [respond]. *)
Lemma calculate_emissions_inr (req : EmissionRequest) (r : Response) :
  calculate_emissions ROUTES COORDINATES haversine req = inr r →
  ∃ route pts rf sf n origin destination,
    validated ROUTES req ∧
    ROUTES !! route_id req = Some route ∧
    Forall2 (located COORDINATES) (stations route) pts ∧
    factor "rail" (container req) = Some rf ∧
    factor "ship_plus" (container req) = Some sf ∧
    calculate_locals ROUTES COORDINATES haversine req
      = inr (locals_of haversine req route pts rf sf) ∧
    Py.round (l_saved (locals_of haversine req route pts rf sf) / 22)%float = inr n ∧
    head (stations route) = Some origin ∧
    last (stations route) = Some destination ∧
    r = response_of (locals_of haversine req route pts rf sf) n origin destination.
Proof.
  unfold calculate_emissions. intros H.
  apply bind_inr in H as (l & Hl & Hr).
  pose proof (calculate_locals_outcome ROUTES COORDINATES haversine req) as Hout.
  rewrite Hl in Hout. inversion Hout as [| | | |route pts rf sf Hval Hroute Hall Hrf Hsf Heq].
  subst l. apply respond_inr in Hr as (n & o & t & Hn & Ho & Ht & ->).
  exists route, pts, rf, sf, n, o, t. repeat split; try done; apply Hval.
Qed.

(** A validated request whose stations all have coordinates reaches
    line 107 with the locals described by [locals_of]. *)
Lemma calculate_locals_located (req : EmissionRequest) (route : Route) :
  validated ROUTES req →
  ROUTES !! route_id req = Some route →
  Forall (λ s, is_Some (COORDINATES !! s)) (stations route) →
  ∃ pts rf sf,
    Forall2 (located COORDINATES) (stations route) pts ∧
    factor "rail" (container req) = Some rf ∧
    factor "ship_plus" (container req) = Some sf ∧
    calculate_locals ROUTES COORDINATES haversine req
      = inr (locals_of haversine req route pts rf sf).
Proof.
  intros Hval Hroute Hall.
  pose proof (calculate_locals_outcome ROUTES COORDINATES haversine req) as Hout.
  destruct Hval as (Hr & Hc & Hw).
  inversion Hout as [Hn|_ Hn|_ _ Hn|route' ok s rest pts' _ Hroute' Hst Hok Hnone
                     |route' pts rf sf _ Hroute' Hloc Hrf Hsf Heq].
  - congruence.
  - contradiction.
  - congruence.
  - exfalso. assert (route' = route) as -> by congruence.
    rewrite Hst in Hall. apply Forall_app in Hall as [_ Hall].
    apply Forall_cons in Hall as [[c Hc'] _]. congruence.
  - assert (route' = route) as -> by congruence. exists pts, rf, sf. done.
Qed.

(** C1. For every request that passes validation and whose stations all
    have coordinates, the rail emission is
    [weight_tons * distance_km * rail factor], the alternative (ship)
    emission is [weight_tons * distance_km * ship_plus factor], both factors
    being those of the table for the container, and [saved] is their
    difference, unclamped: the response reports [round(saved, 1)] of that
    very difference. *)
Theorem emissions_formula (req : EmissionRequest) (route : Route) :
  validated ROUTES req →
  ROUTES !! route_id req = Some route →
  Forall (λ s, is_Some (COORDINATES !! s)) (stations route) →
  ∃ l rf sf,
    calculate_locals ROUTES COORDINATES haversine req = inr l ∧
    factor "rail" (container req) = Some rf ∧
    factor "ship_plus" (container req) = Some sf ∧
    l_rail_emission l = (weight_tons req * l_distance_km l * rf)%float ∧
    l_ship_emission l = (weight_tons req * l_distance_km l * sf)%float ∧
    l_saved l = (l_ship_emission l - l_rail_emission l)%float ∧
    ∀ r, calculate_emissions ROUTES COORDINATES haversine req = inr r →
      rail_kg r = Py.round_ndigits (weight_tons req * l_distance_km l * rf)%float 1 ∧
      ship_kg r = Py.round_ndigits (weight_tons req * l_distance_km l * sf)%float 1 ∧
      saved_kg r = Py.round_ndigits
        (weight_tons req * l_distance_km l * sf - weight_tons req * l_distance_km l * rf)%float 1.
Proof.
  intros Hval Hroute Hall.
  destruct (calculate_locals_located req route Hval Hroute Hall)
    as (pts & rf & sf & Hloc & Hrf & Hsf & Hl).
  exists (locals_of haversine req route pts rf sf), rf, sf.
  do 6 (split; [done|]). intros r Hres.
  unfold calculate_emissions in Hres. rewrite Hl in Hres. cbn [bind] in Hres.
  apply respond_inr in Hres as (n & o & t & _ & _ & _ & ->).
  repeat split; reflexivity.
Qed.

(** C2. The total distance is the sum, from the left and starting at 0.0,
    of the haversine distances between consecutive points of the resolved
    coordinate sequence, which lists the coordinates of the stations in
    route order; it is 0.0 for at most one point; and it is determined by
    that sequence alone. *)
Theorem distance_is_path_sum (req : EmissionRequest) (route : Route) :
  validated ROUTES req →
  ROUTES !! route_id req = Some route →
  Forall (λ s, is_Some (COORDINATES !! s)) (stations route) →
  ∃ l,
    calculate_locals ROUTES COORDINATES haversine req = inr l ∧
    Forall2 (located COORDINATES) (stations route) (l_coords l) ∧
    l_distance_km l = path_distance haversine (l_coords l) ∧
    ((length (l_coords l) ≤ 1)%nat → l_distance_km l = 0%float) ∧
    ∀ req' l',
      calculate_locals ROUTES COORDINATES haversine req' = inr l' →
      l_coords l' = l_coords l → l_distance_km l' = l_distance_km l.
Proof.
  intros Hval Hroute Hall.
  destruct (calculate_locals_located req route Hval Hroute Hall)
    as (pts & rf & sf & Hloc & _ & _ & Hl).
  exists (locals_of haversine req route pts rf sf).
  cbn [l_coords l_distance_km locals_of].
  split; [done|]. split; [done|]. split; [done|]. split.
  - destruct pts as [|p [|q pts]]; simpl; intros; [reflexivity..|lia].
  - intros req' l' Hl' Hcs.
    pose proof (calculate_locals_outcome ROUTES COORDINATES haversine req') as Hout'.
    rewrite Hl' in Hout'. inversion Hout' as [| | | |? ? ? ? _ _ _ _ _ Heq'].
    subst l'. cbn [l_coords l_distance_km locals_of] in *. congruence.
Qed.

(** C3. The call fails with an HTTP 400 error exactly when the route id is
    not a key of the route table, or the container is neither "dfe" nor
    "sfe", or [weight_tons <= 0]; and then there is no result. *)
Theorem validation_error_iff (req : EmissionRequest) :
  ((∃ detail, calculate_emissions ROUTES COORDINATES haversine req
              = inl (HTTPException 400 detail))
   ↔ (ROUTES !! route_id req = None ∨
      ¬ (container req = "dfe" ∨ container req = "sfe") ∨
      (weight_tons req <=? 0)%float = true))
  ∧ ∀ detail r,
      calculate_emissions ROUTES COORDINATES haversine req = inl (HTTPException 400 detail) →
      calculate_emissions ROUTES COORDINATES haversine req ≠ inr r.
Proof.
  split; [|intros detail r ->; discriminate].
  unfold calculate_emissions.
  pose proof (calculate_locals_outcome ROUTES COORDINATES haversine req) as Hout.
  inversion Hout as [Hn|Hr Hn|Hr Hc Hn|route ok s rest pts Hval Hroute Hst Hok Hnone
                     |route pts rf sf Hval Hroute Hloc Hrf Hsf]; cbn [bind].
  - split; [auto|]. eauto.
  - split; [auto|]. eauto.
  - split; [auto|]. eauto.
  - split; [intros [detail [=]]|].
    destruct Hval as ([x Hx] & Hc & Hw). intros [?|[?|?]]; congruence.
  - split.
    + intros [detail Herr]. apply respond_inl in Herr as [|[|]]; discriminate.
    + destruct Hval as ([x Hx] & Hc & Hw). intros [?|[?|?]]; congruence.
Qed.

(** C4. For a validated request, if a station of the route has no entry in
    the coordinate table, the call fails with an HTTP 500 error naming the
    first such station; its status is not the 400 of a validation error,
    and no result is produced. *)
Theorem missing_coordinate_is_server_error (req : EmissionRequest) (route : Route) :
  validated ROUTES req →
  ROUTES !! route_id req = Some route →
  (∃ s, s ∈ stations route ∧ COORDINATES !! s = None) →
  ∃ s,
    s ∈ stations route ∧ COORDINATES !! s = None ∧
    calculate_emissions ROUTES COORDINATES haversine req
      = inl (HTTPException 500 (no_coordinates +:+ s)) ∧
    (∀ detail, calculate_emissions ROUTES COORDINATES haversine req
               ≠ inl (HTTPException 400 detail)) ∧
    (∀ r, calculate_emissions ROUTES COORDINATES haversine req ≠ inr r).
Proof.
  intros Hval Hroute (s0 & Hin & Hnone0).
  unfold calculate_emissions.
  pose proof (calculate_locals_outcome ROUTES COORDINATES haversine req) as Hout.
  destruct Hval as (Hr & Hc & Hw).
  inversion Hout as [Hn|_ Hn|_ _ Hn|route' ok s rest pts' _ Hroute' Hst Hok Hnone
                     |route' pts rf sf _ Hroute' Hloc Hrf Hsf Heq].
  - congruence.
  - contradiction.
  - congruence.
  - assert (route' = route) as -> by congruence.
    exists s. cbn [bind]. split; [rewrite Hst, elem_of_app, elem_of_cons; auto|].
    split; [done|]. split; [done|]. split; intros; discriminate.
  - exfalso. assert (route' = route) as -> by congruence.
    exact (located_not_missing COORDINATES _ _ _ Hloc Hin Hnone0).
Qed.

(** C5. In every successful result, [trees] is [max(0, round(saved / 22))]:
    it is never negative, and it is 0 when [saved] is negative and when
    [saved] is below 11, half of the 22 kg a tree stands for. *)
Theorem trees_is_clamped_round (req : EmissionRequest) (r : Response) :
  calculate_emissions ROUTES COORDINATES haversine req = inr r →
  ∃ l n,
    calculate_locals ROUTES COORDINATES haversine req = inr l ∧
    Py.round (l_saved l / 22)%float = inr n ∧
    trees r = Z.max 0 n ∧
    0 ≤ trees r ∧
    ((l_saved l <? 0)%float = true → trees r = 0) ∧
    ((l_saved l <? 11)%float = true → trees r = 0).
Proof.
  intros H.
  apply calculate_emissions_inr in H
    as (route & pts & rf & sf & n & o & t & _ & _ & _ & _ & _ & Hl & Hn & _ & _ & ->).
  exists (locals_of haversine req route pts rf sf), n.
  split; [done|]. split; [done|]. cbn [trees response_of].
  split; [reflexivity|]. split; [lia|]. split; intros Hlt.
  - pose proof (Trees.round_quotient_negative _ _ Hlt Hn). lia.
  - pose proof (Trees.round_quotient_le_11 _ _ (ltb_leb _ _ Hlt) Hn). lia.
Qed.

(** C6. In every successful result, [trees] is never negative and is 0
    whenever [saved <= 11], the value 11 itself included: 11 / 22 is
    exactly one half, a tie that [round] resolves to the even integer 0. *)
Theorem trees_zero_up_to_11 (req : EmissionRequest) (r : Response) :
  calculate_emissions ROUTES COORDINATES haversine req = inr r →
  ∃ l,
    calculate_locals ROUTES COORDINATES haversine req = inr l ∧
    0 ≤ trees r ∧
    ((l_saved l <=? 11)%float = true → trees r = 0) ∧
    (l_saved l = 11%float → trees r = 0).
Proof.
  intros H.
  apply calculate_emissions_inr in H
    as (route & pts & rf & sf & n & o & t & _ & _ & _ & _ & _ & Hl & Hn & _ & _ & ->).
  exists (locals_of haversine req route pts rf sf).
  split; [done|]. cbn [trees response_of]. split; [lia|].
  assert ((l_saved (locals_of haversine req route pts rf sf) <=? 11)%float = true
          → Z.max 0 n = 0) as Hle.
  { intros Hle. pose proof (Trees.round_quotient_le_11 _ _ Hle Hn). lia. }
  split; [exact Hle|]. intros Heq. apply Hle. rewrite Heq. reflexivity.
Qed.

(** C7. Every successful result reports the name of the route, its first
    station as origin and its last as destination, the distance, the two
    emissions and the saving each rounded to one decimal place, the
    integer tree count, and the coordinates of all the stations in route
    order. *)
Theorem response_fields (req : EmissionRequest) (r : Response) :
  calculate_emissions ROUTES COORDINATES haversine req = inr r →
  ∃ route l,
    ROUTES !! route_id req = Some route ∧
    calculate_locals ROUTES COORDINATES haversine req = inr l ∧
    route_name r = name route ∧
    head (stations route) = Some (from_ r) ∧
    last (stations route) = Some (to_ r) ∧
    distance_km r = Py.round_ndigits (l_distance_km l) 1 ∧
    rail_kg r = Py.round_ndigits (l_rail_emission l) 1 ∧
    ship_kg r = Py.round_ndigits (l_ship_emission l) 1 ∧
    saved_kg r = Py.round_ndigits (l_saved l) 1 ∧
    (∃ n, Py.round (l_saved l / 22)%float = inr n ∧ trees r = Z.max 0 n) ∧
    coords r = l_coords l ∧
    Forall2 (located COORDINATES) (stations route) (coords r).
Proof.
  intros H.
  apply calculate_emissions_inr in H
    as (route & pts & rf & sf & n & o & t & _ & Hroute & Hloc & _ & _ & Hl & Hn & Ho & Ht & ->).
  exists route, (locals_of haversine req route pts rf sf).
  cbn [route_name from_ to_ distance_km rail_kg ship_kg saved_kg trees coords
       response_of l_route l_coords locals_of].
  repeat split; try done. exists n. done.
Qed.


(** C9. When the container is "dfe" or "sfe", both look-ups in
    [EMISSION_FACTORS] succeed; as the container is checked before they
    run, no call ends in a [KeyError]. *)
Theorem emission_factor_lookup_succeeds (req : EmissionRequest) :
  container req = "dfe" ∨ container req = "sfe" →
  (∃ rail rf, Py.getitem EMISSION_FACTORS "rail" = inr rail ∧
              Py.getitem rail (container req) = inr rf) ∧
  (∃ ship_plus sf, Py.getitem EMISSION_FACTORS "ship_plus" = inr ship_plus ∧
                   Py.getitem ship_plus (container req) = inr sf) ∧
  ∀ key, calculate_emissions ROUTES COORDINATES haversine req ≠ inl (KeyError key).
Proof.
  intros Hc. destruct (factor_containers _ Hc) as [[rf Hrf] [sf Hsf]].
  split; [|split].
  - eexists _, rf. split; [exact getitem_rail|].
    rewrite (getitem_factor "rail" _ _ getitem_rail), Hrf. reflexivity.
  - eexists _, sf. split; [exact getitem_ship_plus|].
    rewrite (getitem_factor "ship_plus" _ _ getitem_ship_plus), Hsf. reflexivity.
  - intros key. unfold calculate_emissions.
    pose proof (calculate_locals_outcome ROUTES COORDINATES haversine req) as Hout.
    inversion Hout; cbn [bind]; try discriminate.
    intros Herr. apply respond_inl in Herr as [|[|]]; discriminate.
Qed.

(** C10, amended. For a validated request with a finite weight whose route
    has exactly one station, and that station has a coordinate, the call
    succeeds: the distance, both emissions and the saving reported are 0.0,
    [trees] is 0, and origin and destination are that station. *)
Theorem single_station_route (req : EmissionRequest) (route : Route)
    (s : string) (c : Coordinate) :
  validated ROUTES req →
  isfinite (weight_tons req) = true →
  ROUTES !! route_id req = Some route →
  stations route = [s] →
  COORDINATES !! s = Some c →
  calculate_emissions ROUTES COORDINATES haversine req
  = inr {| route_name := name route;
           from_ := s;
           to_ := s;
           distance_km := 0%float;
           rail_kg := 0%float;
           ship_kg := 0%float;
           saved_kg := 0%float;
           trees := 0;
           coords := [c] |}.
Proof.
  intros Hval Hfin Hroute Hst Hc.
  pose proof (calculate_locals_outcome ROUTES COORDINATES haversine req) as Hout.
  destruct Hval as (Hr & Hcont & Hw).
  inversion Hout as [Hn|_ Hn|_ _ Hn|route' ok s' rest pts' _ Hroute' Hst' Hok Hnone
                     |route' pts rf sf _ Hroute' Hloc Hrf Hsf Heq].
  - congruence.
  - contradiction.
  - congruence.
  - exfalso. assert (route' = route) as -> by congruence. rewrite Hst in Hst'.
    destruct ok as [|? [|? ?]]; simpl in Hst'; [|discriminate..].
    injection Hst' as <- <-. congruence.
  - assert (route' = route) as -> by congruence. rewrite Hst in Hloc.
    inversion Hloc as [|? c' ? ? Hc' Hnil]; subst. inversion Hnil; subst.
    unfold located in Hc'. assert (c' = c) as -> by congruence.
    unfold calculate_emissions. rewrite <- Heq. cbn [bind].
    unfold respond, locals_of.
    cbn [l_saved l_route l_distance_km l_rail_emission l_ship_emission l_coords
         path_distance segments legs sum_from fold_left].
    rewrite Hst, (mul_zero_finite _ Hfin Hw).
    destruct (factor_table) as (F1 & F2 & F3 & F4).
    destruct Hcont as [Hd|Hd]; rewrite Hd in Hrf, Hsf.
    + rewrite F1 in Hrf. rewrite F3 in Hsf. injection Hrf as <-. injection Hsf as <-.
      reflexivity.
    + rewrite F2 in Hrf. rewrite F4 in Hsf. injection Hrf as <-. injection Hsf as <-.
      reflexivity.
Qed.

End Claims.

(** ** The endpoint at work *)

(** The scenario of the specification: 10 t in a "dfe" container over
    111.2 km give 20.0 kg by rail, 50.0 kg otherwise, 30.0 kg saved, 1 tree. *)
Example demo_run :
  calculate_emissions demo_routes demo_coordinates demo_haversine demo_request
  = inr demo_response.
Proof. vm_compute. reflexivity. Qed.

(** The legs of a path are taken in the order of the points and added
    from the left. *)
Example path_distance_three (h : float → float → float → float → float)
    (a b c : Coordinate) :
  path_distance h [a; b; c]
  = (0 + h (fst a) (snd a) (fst b) (snd b) + h (fst b) (snd b) (fst c) (snd c))%float.
Proof. reflexivity. Qed.

(** The literals of the factor table are the binary64 values nearest to
    the decimals written, here with their integer mantissas. *)
Example factor_bits :
  Prim2SF 0.018 = S754_finite false 5188146770730811 (-58) ∧
  Prim2SF 0.015 = S754_finite false 8646911284551352 (-59) ∧
  Prim2SF 0.045 = S754_finite false 6485183463413514 (-57) ∧
  Prim2SF 0.038 = S754_finite false 5476377146882523 (-57).
Proof. repeat split; reflexivity. Qed.

(** [round] as Python documents it: ties go to the even integer, and the
    two-argument form rounds the exact binary value. *)
Example round_ties :
  Py.round 0.5 = inr 0 ∧ Py.round 1.5 = inr 2 ∧ Py.round 2.5 = inr 2 ∧
  Py.round (-1.5) = inr (-2) ∧ Py.round nan = inl ValueError ∧
  Py.round infinity = inl OverflowError.
Proof. repeat split; vm_compute; reflexivity. Qed.

Example round_one_decimal :
  Py.round_ndigits 0.25 1 = 0.2%float ∧ Py.round_ndigits 0.35 1 = 0.3%float ∧
  Py.round_ndigits 0.45 1 = 0.5%float ∧ Py.round_ndigits 123456.75 1 = 123456.8%float ∧
  Py.round_ndigits (-0.04) 1 = (-0)%float ∧ Py.round_ndigits nan 1 = nan.
Proof. repeat split; vm_compute; reflexivity. Qed.

(** With 11 kg saved the quotient is the tie 0.5 and no tree is counted;
    the next float above 11 counts one. *)
Example trees_at_11 :
  Py.round (11 / 22) = inr 0 ∧ Py.round (next_up 11 / 22) = inr 1.
Proof. split; vm_compute; reflexivity. Qed.

(** An infinite weight passes the weight check, and on the single-station
    route the product [inf * 0.0] is a NaN that [round] refuses. *)
Example solo_infinite_run :
  (0 <? infinity)%float = true ∧
  validated demo_routes (solo_request infinity) ∧
  calculate_emissions demo_routes demo_coordinates demo_haversine (solo_request infinity)
  = inl ValueError.
Proof.
  split; [reflexivity|]. split; [|vm_compute; reflexivity].
  split; [eexists; reflexivity|]. split; [left; reflexivity|reflexivity].
Qed.

(** C10 as stated fails: a validated request, even one of positive weight,
    on a route of exactly one station, which has a coordinate, need not
    succeed. *)
Lemma single_station_infinite_weight :
  ¬ (∀ (ROUTES : gmap string Route) (COORDINATES : gmap string Coordinate)
       (haversine : float → float → float → float → float)
       (req : EmissionRequest) (route : Route) (s : string) (c : Coordinate),
       validated ROUTES req →
       (0 <? weight_tons req)%float = true →
       ROUTES !! route_id req = Some route →
       stations route = [s] →
       COORDINATES !! s = Some c →
       ∃ r, calculate_emissions ROUTES COORDINATES haversine req = inr r ∧
            distance_km r = 0%float ∧ rail_kg r = 0%float ∧ ship_kg r = 0%float ∧
            saved_kg r = 0%float ∧ trees r = 0 ∧ from_ r = s ∧ to_ r = s).
Proof.
  intros Hclaim.
  destruct solo_infinite_run as (Hpos & Hval & Hrun).
  destruct (Hclaim demo_routes demo_coordinates demo_haversine (solo_request infinity)
              solo_route "A" (0%float, 0%float) Hval Hpos eq_refl eq_refl eq_refl)
    as (r & Hr & _).
  rewrite Hrun in Hr. discriminate Hr.
Qed.

(** ** The theorems at work on the small world *)

Lemma demo_located : Forall (λ s, is_Some (demo_coordinates !! s)) (stations demo_route).
Proof. repeat constructor; eexists; reflexivity. Defined.

Lemma demo_validated_evidence : validated demo_routes demo_request.
Proof.
  split; [eexists; reflexivity|]. split; [left; reflexivity|reflexivity].
Defined.

Lemma broken_validated_evidence : validated demo_routes broken_request.
Proof.
  split; [eexists; reflexivity|]. split; [right; reflexivity|reflexivity].
Defined.

Lemma solo_validated_evidence : validated demo_routes (solo_request 10).
Proof.
  split; [eexists; reflexivity|]. split; [left; reflexivity|reflexivity].
Defined.

Lemma emissions_formula_witness :
  ∃ l rf sf,
    calculate_locals demo_routes demo_coordinates demo_haversine demo_request = inr l ∧
    factor "rail" "dfe" = Some rf ∧ factor "ship_plus" "dfe" = Some sf ∧
    l_rail_emission l = (10 * l_distance_km l * rf)%float ∧
    l_ship_emission l = (10 * l_distance_km l * sf)%float ∧
    l_saved l = (l_ship_emission l - l_rail_emission l)%float.
Proof.
  destruct (emissions_formula demo_routes demo_coordinates demo_haversine
              demo_request demo_route demo_validated_evidence eq_refl demo_located)
    as (l & rf & sf & Hl & Hrf & Hsf & Hrail & Hship & Hsaved & _).
  exists l, rf, sf. repeat split; assumption.
Defined.

Lemma distance_is_path_sum_witness :
  ∃ l,
    calculate_locals demo_routes demo_coordinates demo_haversine demo_request = inr l ∧
    l_distance_km l = path_distance demo_haversine (l_coords l).
Proof.
  destruct (distance_is_path_sum demo_routes demo_coordinates demo_haversine
              demo_request demo_route demo_validated_evidence eq_refl demo_located)
    as (l & Hl & _ & Hd & _).
  exists l. split; assumption.
Defined.

Lemma missing_coordinate_is_server_error_witness :
  ∃ s,
    s ∈ stations broken_route ∧
    calculate_emissions demo_routes demo_coordinates demo_haversine broken_request
    = inl (HTTPException 500 (no_coordinates +:+ s)).
Proof.
  destruct (missing_coordinate_is_server_error demo_routes demo_coordinates demo_haversine
              broken_request broken_route broken_validated_evidence eq_refl)
    as (s & Hin & _ & Herr & _).
  - exists "X". split; [|reflexivity]. apply list_elem_of_In. simpl. auto.
  - exists s. split; assumption.
Defined.

Lemma trees_is_clamped_round_witness :
  ∃ l n,
    calculate_locals demo_routes demo_coordinates demo_haversine demo_request = inr l ∧
    Py.round (l_saved l / 22)%float = inr n ∧
    trees demo_response = Z.max 0 n.
Proof.
  destruct (trees_is_clamped_round demo_routes demo_coordinates demo_haversine
              demo_request demo_response)
    as (l & n & Hl & Hn & Ht & _).
  - vm_compute. reflexivity.
  - exists l, n. repeat split; assumption.
Defined.

Lemma trees_zero_up_to_11_witness : 0 ≤ trees demo_response.
Proof.
  destruct (trees_zero_up_to_11 demo_routes demo_coordinates demo_haversine
              demo_request demo_response)
    as (l & _ & Ht & _).
  - vm_compute. reflexivity.
  - exact Ht.
Defined.

Lemma response_fields_witness :
  head (stations demo_route) = Some (from_ demo_response) ∧
  last (stations demo_route) = Some (to_ demo_response).
Proof.
  destruct (response_fields demo_routes demo_coordinates demo_haversine
              demo_request demo_response)
    as (route & l & Hroute & _ & _ & Hfrom & Hto & _).
  - vm_compute. reflexivity.
  - change (Some demo_route = Some route) in Hroute. injection Hroute as <-.
    split; assumption.
Defined.


Lemma emission_factor_lookup_succeeds_witness :
  (∃ rail rf, Py.getitem EMISSION_FACTORS "rail" = inr rail ∧
              Py.getitem rail "dfe" = inr rf) ∧
  (∃ ship_plus sf, Py.getitem EMISSION_FACTORS "ship_plus" = inr ship_plus ∧
                   Py.getitem ship_plus "dfe" = inr sf).
Proof.
  destruct (emission_factor_lookup_succeeds demo_routes demo_coordinates demo_haversine
              demo_request) as (Hrail & Hship & _).
  - left. reflexivity.
  - split; assumption.
Defined.

Lemma single_station_route_witness :
  calculate_emissions demo_routes demo_coordinates demo_haversine (solo_request 10)
  = inr {| route_name := "A";
           from_ := "A";
           to_ := "A";
           distance_km := 0%float;
           rail_kg := 0%float;
           ship_kg := 0%float;
           saved_kg := 0%float;
           trees := 0;
           coords := [(0%float, 0%float)] |}.
Proof.
  apply (single_station_route demo_routes demo_coordinates demo_haversine
           (solo_request 10) solo_route "A" (0%float, 0%float)
           solo_validated_evidence).
  - reflexivity.
  - reflexivity.
  - reflexivity.
  - reflexivity.
Defined.

(** * Part IV: the rest of the code *)

(** ** Finite arithmetic *)

Module Finite.
Import Binary64.

(** Rounding to binary64 a magnitude [m * 2^e] below [2^k], a power of two
    in the range of the format, gives a finite float of magnitude at most
    [2^k]: no overflow. *)
Lemma binary_round_aux_at_most_pow2 (s : bool) (m e k : Z) (l : location) :
  0 ≤ m → -1074 ≤ k ≤ 1023 → e ≤ 971 → e ≤ k → m < 2 ^ (k - e) →
  at_most_pow2 k (binary_round_aux prec emax s m e l).
Proof.
  intros Hm Hk He Hek Hlt. unfold binary_round_aux.
  pose proof (shr_fexp_spec m e l Hm) as [He1 Hm1].
  destruct (shr_fexp prec emax m e l) as [r1 e1]. cbn [fst snd] in He1, Hm1.
  pose proof (Zdigits2_le m (k - e) Hm ltac:(lia) Hlt) as Hd.
  rewrite fexp_binary64 in He1.
  assert (e ≤ e1 ∧ e1 ≤ k ∧ e1 ≤ 971) as (Hee1 & He1k & He1') by lia.
  assert (0 < 2 ^ (e1 - e)) as Hp1 by (apply Z.pow_pos_nonneg; lia).
  assert (0 < 2 ^ (k - e1)) as Hq1 by (apply Z.pow_pos_nonneg; lia).
  assert (2 ^ (k - e) = 2 ^ (e1 - e) * 2 ^ (k - e1)) as Hsplit1
    by (rewrite <- Z.pow_add_r by lia; f_equal; lia).
  assert (0 ≤ shr_m r1 < 2 ^ (k - e1)) as [Hr1 Hr1' ].
  { rewrite Hm1. split; [apply Z.div_pos; lia|].
    apply Z.div_lt_upper_bound; lia. }
  pose proof (round_nearest_even_bounds (shr_m r1) (loc_of_shr_record r1)) as Hrnd.
  set (m2 := round_nearest_even (shr_m r1) (loc_of_shr_record r1)) in *.
  assert (0 ≤ m2) as Hm2 by lia.
  pose proof (shr_fexp_spec m2 e1 loc_Exact Hm2) as [He2 Hm3].
  destruct (shr_fexp prec emax m2 e1 loc_Exact) as [r2 e2]. cbn [fst snd] in He2, Hm3.
  assert (m2 < 2 ^ (k + 1 - e1)) as Hm2lt.
  { replace (k + 1 - e1) with (Z.succ (k - e1)) by lia. rewrite Z.pow_succ_r by lia. lia. }
  pose proof (Zdigits2_le m2 (k + 1 - e1) Hm2 ltac:(lia) Hm2lt) as Hd2.
  rewrite fexp_binary64 in He2.
  assert (e1 ≤ e2 ∧ e2 ≤ k ∧ e2 ≤ 971) as (He12 & He2k & He2') by lia.
  destruct (shr_m r2) as [|p|p] eqn:Hr2.
  - exact I.
  - change (emax - prec) with 971.
    destruct (Z.leb_spec e2 971) as [_|Hgt]; [|lia].
    simpl. split; [done|].
    assert (0 < 2 ^ (e2 - e1)) as Hp2 by (apply Z.pow_pos_nonneg; lia).
    assert (2 ^ (k - e1) = 2 ^ (e2 - e1) * 2 ^ (k - e2)) as Hsplit2
      by (rewrite <- Z.pow_add_r by lia; f_equal; lia).
    rewrite Hm3. apply Z.div_le_upper_bound; lia.
  - exfalso. assert (0 ≤ m2 / 2 ^ (e2 - e1)) as Hnn; [|lia].
    apply Z.div_pos; [done|]. apply Z.pow_pos_nonneg; lia.
Qed.

Lemma at_most_pow2_mono (k k' : Z) (x : spec_float) :
  k ≤ k' → at_most_pow2 k x → at_most_pow2 k' x.
Proof.
  intros Hk. destruct x as [s|s| |s m e]; simpl; try done.
  intros [He Hm]. split; [lia|].
  assert (2 ^ (k - e) ≤ 2 ^ (k' - e)) by (apply Z.pow_le_mono_r; lia). lia.
Qed.

Lemma at_most_pow2_finite (k : Z) (x : spec_float) :
  at_most_pow2 k x → finite x = true.
Proof. destruct x; simpl; done. Qed.

(** The exponent of a binary64 float is between -1074 and 971. *)
Lemma valid_binary_exponent (s : bool) (m : positive) (e : Z) :
  valid_binary (S754_finite s m e) = true → -1074 ≤ e ≤ 971.
Proof.
  unfold SpecFloat.valid_binary, bounded, canonical_mantissa.
  rewrite fexp_binary64. change (emax - prec) with 971.
  intros [Hc He]%andb_prop. apply Z.eqb_eq in Hc. apply Z.leb_le in He. lia.
Qed.

(** A mantissa of at most 53 digits is below [2^53]. *)
Lemma mantissa_lt (m : positive) : Z.pos (digits2_pos m) ≤ 53 → Z.pos m < 2 ^ 53.
Proof.
  intros Hd. pose proof (Zdigits2_gt m) as Hgt.
  assert (2 ^ Z.pos (digits2_pos m) ≤ 2 ^ 53) by (apply Z.pow_le_mono_r; lia). lia.
Qed.

(** *** Multiplication by an emission factor *)

(** A finite float times a positive float below [2^-4] does not
    overflow. *)
Lemma SFmul_small (x y : spec_float) :
  valid_binary x = true → finite x = true → small_positive y →
  at_most_pow2 1020 (SFmul prec emax x y).
Proof.
  intros Hv Hf Hy. destruct y as [| | |[] my ey]; try done. destruct Hy as [Hdy Hey].
  destruct x as [sx|sx| |sx mx ex]; try done. unfold SFmul.
  pose proof (valid_binary_exponent _ _ _ Hv) as Hex.
  pose proof (mantissa_lt mx (Trees.valid_binary_digits _ _ _ Hv)) as Hmx.
  pose proof (mantissa_lt my Hdy) as Hmy.
  apply binary_round_aux_at_most_pow2; try lia.
  assert (2 ^ 53 * 2 ^ 53 ≤ 2 ^ (1020 - (ex + ey))) as Hpow.
  { rewrite <- Z.pow_add_r by lia. apply Z.pow_le_mono_r; lia. }
  rewrite Pos2Z.inj_mul.
  assert (0 < 2 ^ 53) by (apply Z.pow_pos_nonneg; lia).
  generalize dependent (2 ^ 53). generalize dependent (2 ^ (1020 - (ex + ey))).
  intros. nia.
Qed.

(** A NaN or an infinity times a positive float is itself. *)
Lemma SFmul_not_finite (x y : spec_float) :
  finite x = false → small_positive y → SFmul prec emax x y = x.
Proof.
  intros Hf Hy. destruct y as [| | |[] my ey]; try done.
  destruct x as [sx|[]| |sx mx ex]; try done.
Qed.

(** A finite product has finite factors. *)
Lemma SFmul_finite_inv (x y : spec_float) :
  finite (SFmul prec emax x y) = true → finite x = true ∧ finite y = true.
Proof. destruct x as [sx|sx| |sx mx ex], y as [sy|sy| |sy my ey]; simpl; done. Qed.

(** *** Subtraction *)

Lemma iter_xO (d m : positive) : Z.pos (Pos.iter xO m d) = Z.pos m * 2 ^ Z.pos d.
Proof.
  induction d as [|d IH] using Pos.peano_ind.
  - simpl. lia.
  - rewrite Pos.iter_succ, Pos2Z.inj_xO, IH, Pos2Z.inj_succ, Z.pow_succ_r by lia. lia.
Qed.

(** [shl_align] lowers the exponent to [min ex ex'] and keeps the value. *)
Lemma shl_align_spec (mx : positive) (ex ex' : Z) :
  snd (shl_align mx ex ex') = Z.min ex ex' ∧
  Z.pos (fst (shl_align mx ex ex')) = Z.pos mx * 2 ^ (ex - Z.min ex ex').
Proof.
  unfold shl_align. destruct (ex' - ex) as [|d|d] eqn:Hd; cbn [fst snd].
  - rewrite Z.min_l by lia. rewrite Z.sub_diag. simpl. lia.
  - rewrite Z.min_l by lia. rewrite Z.sub_diag. simpl. lia.
  - rewrite Z.min_r by lia. split; [done|].
    rewrite iter_xO. f_equal. f_equal. lia.
Qed.

(** Rounding an integer multiple of [2^e] of magnitude at most [2^k]. *)
Lemma binary_round_at_most_pow2 (s : bool) (m : positive) (e k : Z) :
  -1074 ≤ k ≤ 1023 → e ≤ 971 → e ≤ k → Z.pos m < 2 ^ (k - e) →
  at_most_pow2 k (binary_round prec emax s m e).
Proof.
  intros Hk He Hek Hm. unfold binary_round.
  pose proof (shl_align_spec m e (fexp prec emax (Z.pos (digits2_pos m) + e))) as [He' Hm'].
  destruct (shl_align m e _) as [mz ez]. cbn [fst snd] in He', Hm'.
  assert (ez ≤ e) as Hez by lia.
  apply binary_round_aux_at_most_pow2; try lia.
  rewrite Hm', <- He'.
  assert (2 ^ (k - ez) = 2 ^ (k - e) * 2 ^ (e - ez)) as ->
    by (rewrite <- Z.pow_add_r by lia; f_equal; lia).
  assert (0 < 2 ^ (e - ez)) by (apply Z.pow_pos_nonneg; lia).
  generalize dependent (2 ^ (e - ez)). generalize dependent (2 ^ (k - e)).
  intros. nia.
Qed.

(** The difference of two floats of magnitude at most [2^1020] is finite. *)
Lemma SFsub_at_most_pow2 (x y : spec_float) :
  valid_binary x = true → valid_binary y = true →
  at_most_pow2 1020 x → at_most_pow2 1020 y →
  at_most_pow2 1022 (SFsub prec emax x y).
Proof.
  intros Hvx Hvy Hx Hy.
  destruct x as [sx|sx| |sx mx ex], y as [sy|sy| |sy my ey]; try done.
  - destruct sx, sy; exact I.
  - simpl. destruct Hy as [He Hm]. split; [lia|].
    assert (2 ^ (1020 - ey) ≤ 2 ^ (1022 - ey)) by (apply Z.pow_le_mono_r; lia). lia.
  - exact (at_most_pow2_mono 1020 1022 _ ltac:(lia) Hx).
  - unfold SFsub. destruct Hx as [Hex Hmx], Hy as [Hey Hmy].
    pose proof (valid_binary_exponent _ _ _ Hvx) as Hbx.
    pose proof (valid_binary_exponent _ _ _ Hvy) as Hby.
    set (ez := Z.min ex ey).
    pose proof (shl_align_spec mx ex ez) as [_ Hax].
    pose proof (shl_align_spec my ey ez) as [_ Hay].
    rewrite (Z.min_r ex ez) in Hax by (subst ez; lia).
    rewrite (Z.min_r ey ez) in Hay by (subst ez; lia).
    assert (ez ≤ ex ∧ ez ≤ ey) as [Hzx Hzy] by (subst ez; lia).
    assert (Z.pos (fst (shl_align mx ex ez)) ≤ 2 ^ (1020 - ez)) as Hbx'.
    { rewrite Hax.
      assert (2 ^ (1020 - ez) = 2 ^ (1020 - ex) * 2 ^ (ex - ez)) as ->
        by (rewrite <- Z.pow_add_r by lia; f_equal; lia).
      apply Z.mul_le_mono_nonneg_r; [apply Z.pow_nonneg; lia|done]. }
    assert (Z.pos (fst (shl_align my ey ez)) ≤ 2 ^ (1020 - ez)) as Hby'.
    { rewrite Hay.
      assert (2 ^ (1020 - ez) = 2 ^ (1020 - ey) * 2 ^ (ey - ez)) as ->
        by (rewrite <- Z.pow_add_r by lia; f_equal; lia).
      apply Z.mul_le_mono_nonneg_r; [apply Z.pow_nonneg; lia|done]. }
    assert (2 ^ (1022 - ez) = 4 * 2 ^ (1020 - ez)) as Hpow.
    { replace (1022 - ez) with (2 + (1020 - ez)) by lia.
      rewrite Z.pow_add_r by lia. reflexivity. }
    assert (0 < 2 ^ (1020 - ez)) as Hpos by (apply Z.pow_pos_nonneg; lia).
    clear Hax Hay Hmx Hmy.
    generalize dependent (fst (shl_align mx ex ez)).
    generalize dependent (fst (shl_align my ey ez)). intros ay Hay ax Hax.
    assert (Z.abs (cond_Zopp sx (Z.pos ax) - cond_Zopp sy (Z.pos ay)) < 2 ^ (1022 - ez))
      as Habs by (destruct sx, sy; simpl; lia).
    destruct (cond_Zopp sx (Z.pos ax) - cond_Zopp sy (Z.pos ay)) as [|p|p];
      cbn [binary_normalize]; [exact I| |];
      apply binary_round_at_most_pow2; lia.
Qed.

(** *** Division by 22 *)

(** A finite float divided by 22 is finite. *)
Lemma SFdiv_22_finite (x : spec_float) :
  valid_binary x = true → finite x = true →
  at_most_pow2 1020 (SFdiv prec emax x twenty_two).
Proof.
  intros Hv Hf. destruct x as [s|s| |s m e]; try done.
  unfold twenty_two, SFdiv, SFdiv_core_binary.
  pose proof (valid_binary_exponent _ _ _ Hv) as Hbe.
  pose proof (Trees.valid_binary_digits _ _ _ Hv) as Hdig.
  pose proof (mantissa_lt m Hdig) as Hm.
  change (Zdigits2 6192449487634432) with 53.
  change (Zdigits2 (Z.pos m)) with (Z.pos (digits2_pos m)).
  rewrite fexp_binary64.
  set (e' := Z.min _ (e - -48)).
  assert (e' ≤ e + 48 ∧ e' ≤ 971) as [He' He'' ] by (subst e'; lia).
  set (m' := match e - -48 - e' with Z.pos _ => _ | 0 => _ | Z.neg _ => _ end).
  assert (m' = Z.pos m * 2 ^ (e + 48 - e')) as Hm'.
  { subst m'. destruct (e - -48 - e') as [|p|p] eqn:Hs.
    - replace (e + 48 - e') with 0 by lia. lia.
    - rewrite Z.shiftl_mul_pow2 by lia. f_equal. f_equal. lia.
    - lia. }
  clearbody m' e'.
  destruct (Z.div_eucl m' 6192449487634432) as [q r] eqn:Hde.
  assert (q = m' / 6192449487634432) as Hq
    by (unfold Z.div; rewrite Hde; reflexivity).
  assert (0 < 2 ^ (e + 48 - e')) as Hp by (apply Z.pow_pos_nonneg; lia).
  apply binary_round_aux_at_most_pow2; try lia.
  - rewrite Hq. apply Z.div_pos; lia.
  - rewrite Hq. apply Z.div_lt_upper_bound; [lia|].
    assert (2 ^ (1020 - e') = 2 ^ (e + 48 - e') * 2 ^ (972 - e)) as ->
      by (rewrite <- Z.pow_add_r by lia; f_equal; lia).
    assert (2 ^ 1 ≤ 2 ^ (972 - e)) as Hone by (apply Z.pow_le_mono_r; lia).
    change (2 ^ 1) with 2 in Hone. change (2 ^ 53) with 9007199254740992 in Hm.
    rewrite Hm'. clear Hm' Hq Hde.
    generalize dependent (2 ^ (972 - e)). generalize dependent (2 ^ (e + 48 - e')).
    intros. nia.
Qed.

End Finite.

(** ** The sign of the saving *)

Module Sign.
Import Binary64 Finite.

(** A positive integer is at least two to the number of its digits less
    one. *)
Lemma Zdigits2_ge (p : positive) : 2 ^ (Z.pos (digits2_pos p) - 1) ≤ Z.pos p.
Proof.
  rewrite digits2_pos_size. pose proof (Pos.size_le p) as Hle.
  apply Pos2Z.pos_le_pos in Hle. rewrite Pos2Z.inj_pow in Hle.
  replace (Z.pos (Pos.size p)) with (Z.succ (Z.pos (Pos.size p) - 1)) in Hle by lia.
  rewrite Z.pow_succ_r in Hle by lia. lia.
Qed.

(** [shr_fexp] keeps a mantissa positive and at least [2^k] in value. *)
Lemma shr_fexp_at_least (m e k : Z) (l : location) :
  1 ≤ m → -1074 ≤ k → (e ≤ k → 2 ^ (k - e) ≤ m) →
  1 ≤ shr_m (fst (shr_fexp prec emax m e l)) ∧
  (snd (shr_fexp prec emax m e l) ≤ k →
   2 ^ (k - snd (shr_fexp prec emax m e l)) ≤ shr_m (fst (shr_fexp prec emax m e l))).
Proof.
  intros Hm Hk Hge.
  pose proof (shr_fexp_spec m e l ltac:(lia)) as [He1 Hm1].
  destruct (shr_fexp prec emax m e l) as [r1 e1]. cbn [fst snd] in *.
  rewrite fexp_binary64 in He1. rewrite Hm1.
  destruct m as [|p|p]; [lia| |lia]. cbn [Zdigits2] in He1.
  pose proof (Zdigits2_ge p) as Hdig.
  assert (0 < 2 ^ (e1 - e)) as Hp by (apply Z.pow_pos_nonneg; lia).
  destruct (Z.le_gt_cases e1 k) as [Hle|Hgt].
  - assert (2 ^ (k - e) = 2 ^ (e1 - e) * 2 ^ (k - e1)) as Hsplit
      by (rewrite <- Z.pow_add_r by lia; f_equal; lia).
    assert (0 < 2 ^ (k - e1)) by (apply Z.pow_pos_nonneg; lia).
    assert (2 ^ (k - e1) ≤ Z.pos p / 2 ^ (e1 - e)) as Hlow
      by (apply Z.div_le_lower_bound; [done|]; specialize (Hge ltac:(lia)); lia).
    split; [lia|done].
  - split; [|lia].
    destruct (Z.eq_dec e1 e) as [->|Hne].
    + rewrite Z.sub_diag, Z.div_1_r. lia.
    + assert (e1 - e = Z.pos (digits2_pos p) - 53) as Hshift by lia.
      assert (2 ^ (Z.pos (digits2_pos p) - 1) = 2 ^ (e1 - e) * 2 ^ 52) as Hsplit
        by (rewrite <- Z.pow_add_r by lia; f_equal; lia).
      assert (2 ^ 52 ≤ Z.pos p / 2 ^ (e1 - e)) as Hlow
        by (apply Z.div_le_lower_bound; [done|]; lia).
      change (2 ^ 52) with 4503599627370496 in Hlow. lia.
Qed.

(** Rounding to binary64 a magnitude of at least [2^k] gives at least
    [2^k], or overflows. *)
Lemma binary_round_aux_at_least_pow2 (s : bool) (m e k : Z) (l : location) :
  1 ≤ m → -1074 ≤ k → (e ≤ k → 2 ^ (k - e) ≤ m) →
  at_least_pow2 k (binary_round_aux prec emax s m e l).
Proof.
  intros Hm Hk Hge. unfold binary_round_aux.
  pose proof (shr_fexp_at_least m e k l Hm Hk Hge) as [H1 H1k].
  destruct (shr_fexp prec emax m e l) as [r1 e1]. cbn [fst snd] in H1, H1k.
  pose proof (round_nearest_even_bounds (shr_m r1) (loc_of_shr_record r1)) as Hrnd.
  set (m2 := round_nearest_even (shr_m r1) (loc_of_shr_record r1)) in *.
  pose proof (shr_fexp_at_least m2 e1 k loc_Exact ltac:(lia) Hk) as [H2 H2k].
  { intros Hle. specialize (H1k Hle). lia. }
  destruct (shr_fexp prec emax m2 e1 loc_Exact) as [r2 e2]. cbn [fst snd] in H2, H2k.
  destruct (shr_m r2) as [|p|p]; [lia| |lia].
  destruct (e2 <=? emax - prec); simpl; done.
Qed.

Lemma iter_pos_comm {A} (f : A → A) (p : positive) (x : A) :
  SpecFloat.iter_pos f p (f x) = f (SpecFloat.iter_pos f p x).
Proof.
  revert x. induction p as [p IH|p IH|]; intros x; simpl; [|by rewrite !IH|done].
  by rewrite !IH.
Qed.

Lemma iter_pos_succ {A} (f : A → A) (p : positive) (x : A) :
  SpecFloat.iter_pos f (Pos.succ p) x = f (SpecFloat.iter_pos f p x).
Proof.
  revert x. induction p as [p IH|p IH|]; intros x; simpl.
  - rewrite !IH, !iter_pos_comm. reflexivity.
  - rewrite !iter_pos_comm. reflexivity.
  - reflexivity.
Qed.

(** A magnitude below half the smallest positive float rounds to zero. *)
Lemma binary_round_aux_underflow (s : bool) (p : positive) (e : Z) :
  Z.pos (digits2_pos p) + e ≤ -1075 →
  binary_round_aux prec emax s (Z.pos p) e loc_Exact = S754_zero s.
Proof.
  intros Hsmall. unfold binary_round_aux, shr_fexp. cbn [Zdigits2].
  rewrite fexp_binary64.
  replace (Z.max (Z.pos (digits2_pos p) + e - 53) (-1074) - e)
    with (Z.pos (Pos.succ (Z.to_pos (-1075 - e)))) by lia.
  cbn [shr shr_record_of_loc]. rewrite iter_pos_succ.
  set (r := SpecFloat.iter_pos shr_1 _ _).
  assert (shr_m r = 0) as Hr.
  { subst r. rewrite iter_shr_1_div by (simpl; lia). cbn [shr_m].
    apply Z.div_small. split; [lia|].
    pose proof (Zdigits2_gt p) as Hgt.
    assert (2 ^ Z.pos (digits2_pos p) ≤ 2 ^ Z.pos (Z.to_pos (-1075 - e)))
      by (apply Z.pow_le_mono_r; lia).
    lia. }
  destruct r as [m0 r0 s0]. cbn [shr_m] in Hr. subst m0. cbn [shr_1 shr_m].
  replace (round_nearest_even 0 (loc_of_shr_record {| shr_m := 0; shr_r := false; shr_s := r0 || s0 |}))
    with 0 by (destruct (r0 || s0); reflexivity).
  cbn [Zdigits2]. rewrite fexp_binary64.
  replace (Z.max (0 + (e + Z.pos (Pos.succ (Z.to_pos (-1075 - e)))) - 53) (-1074)
           - (e + Z.pos (Pos.succ (Z.to_pos (-1075 - e))))) with 0 by lia.
  reflexivity.
Qed.

Lemma not_negative_round (m e : Z) (l : location) :
  not_negative (binary_round_aux prec emax false m e l).
Proof.
  destruct (binary_round_aux_cases false m e l) as [->|[->|[->|(m' & e' & ->)]]]; exact I.
Qed.

(** The difference of a float of at least [2^k] and one of at most [2^k],
    both positive, is not negative. *)
Lemma SFsub_not_negative (k : Z) (x y : spec_float) :
  not_negative x → not_negative y →
  at_least_pow2 k x → at_most_pow2 k y →
  not_negative (SFsub prec emax x y).
Proof.
  intros Hx Hy Hge Hle.
  destruct x as [sx|[]| |[] mx ex], y as [sy|[]| |[] my ey]; try done.
  unfold SFsub. destruct Hle as [Hey Hmy]. cbn [at_least_pow2] in Hge.
  set (ez := Z.min ex ey).
  pose proof (shl_align_spec mx ex ez) as [_ Hax].
  pose proof (shl_align_spec my ey ez) as [_ Hay].
  rewrite (Z.min_r ex ez) in Hax by (subst ez; lia).
  rewrite (Z.min_r ey ez) in Hay by (subst ez; lia).
  assert (ez ≤ ex ∧ ez ≤ ey) as [Hzx Hzy] by (subst ez; lia).
  assert (Z.pos (fst (shl_align my ey ez)) ≤ 2 ^ (k - ez)) as Hby.
  { rewrite Hay.
    assert (2 ^ (k - ez) = 2 ^ (k - ey) * 2 ^ (ey - ez)) as ->
      by (rewrite <- Z.pow_add_r by lia; f_equal; lia).
    apply Z.mul_le_mono_nonneg_r; [apply Z.pow_nonneg; lia|done]. }
  assert (2 ^ (k - ez) ≤ Z.pos (fst (shl_align mx ex ez))) as Hbx.
  { rewrite Hax. destruct (Z.le_gt_cases ex k) as [Hle|Hgt].
    - assert (2 ^ (k - ez) = 2 ^ (k - ex) * 2 ^ (ex - ez)) as ->
        by (rewrite <- Z.pow_add_r by lia; f_equal; lia).
      apply Z.mul_le_mono_nonneg_r; [apply Z.pow_nonneg; lia|auto].
    - assert (2 ^ (k - ez) ≤ 2 ^ (ex - ez)) by (apply Z.pow_le_mono_r; lia).
      assert (0 < 2 ^ (ex - ez)) by (apply Z.pow_pos_nonneg; lia).
      nia. }
  cbn [cond_Zopp].
  destruct (Z.pos (fst (shl_align mx ex ez)) - Z.pos (fst (shl_align my ey ez)))
    as [|d|d] eqn:Hd; [exact I| |lia].
  cbn [binary_normalize]. unfold binary_round.
  destruct (shl_align d ez _) as [mz ez']. apply not_negative_round.
Qed.

(** Under a positive float [p], a factor at least twice another gives a
    product that is not below the other's: their difference is not
    negative. *)
Lemma SFmul_twice (mp : positive) (ep : Z) (rf sf : spec_float) :
  valid_binary (S754_finite false mp ep) = true →
  small_positive rf → small_positive sf → twice_le rf sf →
  not_negative (SFsub prec emax (SFmul prec emax (S754_finite false mp ep) sf)
                                (SFmul prec emax (S754_finite false mp ep) rf)).
Proof.
  intros Hv Hrf Hsf Htw.
  destruct rf as [| | |[] mr er]; try done. destruct sf as [| | |[] ms es]; try done.
  destruct Hrf as [Hdr Her], Hsf as [Hds Hes], Htw as [Hee Htw].
  cbn [SFmul xorb].
  pose proof (Finite.valid_binary_exponent _ _ _ Hv) as Hep.
  pose proof (Finite.mantissa_lt mp (Trees.valid_binary_digits _ _ _ Hv)) as Hmp.
  pose proof (Finite.mantissa_lt mr Hdr) as Hmr.
  pose proof (Zdigits2_gt (mp * mr)) as Hgt.
  pose proof (Zdigits2_ge (mp * mr)) as Hge.
  set (k := Z.pos (digits2_pos (mp * mr)) + (ep + er)) in *.
  destruct (Z.le_gt_cases k (-1075)) as [Hunder|Hk].
  - rewrite (binary_round_aux_underflow false (mp * mr) (ep + er) Hunder).
    destruct (binary_round_aux_cases false (Z.pos (mp * ms)) (ep + es) loc_Exact)
      as [->|[->|[->|(m' & e' & ->)]]]; exact I.
  - assert (Z.pos (digits2_pos (mp * mr)) ≤ 106) as Hdig.
    { apply (Zdigits2_le (Z.pos (mp * mr)) 106); [lia|lia|].
      rewrite Pos2Z.inj_mul. change (2 ^ 106) with (2 ^ 53 * 2 ^ 53).
      assert (0 < 2 ^ 53) by (apply Z.pow_pos_nonneg; lia).
      generalize dependent (2 ^ 53). intros. nia. }
    apply (SFsub_not_negative k); try apply not_negative_round.
    + apply binary_round_aux_at_least_pow2; [lia|lia|]. intros Hle.
      assert (2 ^ (Z.pos (digits2_pos (mp * mr))) = 2 * 2 ^ (Z.pos (digits2_pos (mp * mr)) - 1))
        as Hdouble.
      { replace (Z.pos (digits2_pos (mp * mr)))
          with (Z.succ (Z.pos (digits2_pos (mp * mr)) - 1)) at 1 by lia.
        apply Z.pow_succ_r. lia. }
      assert (2 ^ (Z.pos (digits2_pos (mp * mr))) = 2 ^ (k - (ep + es)) * 2 ^ (es - er))
        as Hsplit by (rewrite <- Z.pow_add_r by lia; f_equal; lia).
      assert (0 < 2 ^ (es - er)) by (apply Z.pow_pos_nonneg; lia).
      rewrite !Pos2Z.inj_mul in *.
      generalize dependent (2 ^ (Z.pos (digits2_pos (mp * mr)) - 1)).
      generalize dependent (2 ^ (Z.pos (digits2_pos (mp * mr)))).
      generalize dependent (2 ^ (k - (ep + es))).
      generalize dependent (2 ^ (es - er)). intros. nia.
    + apply Finite.binary_round_aux_at_most_pow2; try lia.
      replace (k - (ep + er)) with (Z.pos (digits2_pos (mp * mr))) by lia. done.
Qed.

End Sign.

(** ** The arithmetic of lines 105-110 *)

Lemma isfinite_spec (x : float) : isfinite x = finite (Prim2SF x).
Proof. reflexivity. Qed.

(** The four factors of the table are positive and below [2^-4]. *)
Lemma factors_small (c : string) (rf sf : float) :
  c = "dfe" ∨ c = "sfe" →
  factor "rail" c = Some rf → factor "ship_plus" c = Some sf →
  small_positive (Prim2SF rf) ∧ small_positive (Prim2SF sf).
Proof.
  destruct factor_table as (F1 & F2 & F3 & F4).
  intros [->| ->] Hrf Hsf.
  - rewrite F1 in Hrf. rewrite F3 in Hsf. injection Hrf as <-. injection Hsf as <-.
    split; vm_compute; split; discriminate.
  - rewrite F2 in Hrf. rewrite F4 in Hsf. injection Hrf as <-. injection Hsf as <-.
    split; vm_compute; split; discriminate.
Qed.

(** When [p = weight_tons * distance_km] is finite, so are both emissions,
    their difference and its quotient by 22. *)
Lemma saved_finite (p rf sf : float) :
  small_positive (Prim2SF rf) → small_positive (Prim2SF sf) →
  isfinite p = true →
  isfinite (p * rf) = true ∧ isfinite (p * sf) = true ∧
  isfinite (p * sf - p * rf) = true ∧
  isfinite ((p * sf - p * rf) / 22) = true.
Proof.
  intros Hrf Hsf Hp. rewrite !isfinite_spec in *.
  pose proof (Finite.SFmul_small _ _ (Prim2SF_valid p) Hp Hrf) as Hrail.
  pose proof (Finite.SFmul_small _ _ (Prim2SF_valid p) Hp Hsf) as Hship.
  change (SFmul prec emax) with SF64mul in Hrail, Hship.
  rewrite <- mul_spec in Hrail, Hship.
  pose proof (Finite.SFsub_at_most_pow2 _ _ (Prim2SF_valid _) (Prim2SF_valid _) Hship Hrail)
    as Hsaved.
  change (SFsub prec emax) with SF64sub in Hsaved. rewrite <- sub_spec in Hsaved.
  pose proof (Finite.SFdiv_22_finite _ (Prim2SF_valid _)
                (Finite.at_most_pow2_finite _ _ Hsaved)) as Hquot.
  rewrite <- Binary64.Prim2SF_22 in Hquot.
  change (SFdiv prec emax) with SF64div in Hquot. rewrite <- div_spec in Hquot.
  repeat split; eapply Finite.at_most_pow2_finite; eassumption.
Qed.

(** When [p] is a NaN or an infinity, both emissions are [p], their
    difference is a NaN and so is its quotient by 22. *)
Lemma saved_nan (p rf sf : float) :
  small_positive (Prim2SF rf) → small_positive (Prim2SF sf) →
  isfinite p = false →
  Prim2SF ((p * sf - p * rf) / 22) = S754_nan.
Proof.
  intros Hrf Hsf Hp. rewrite isfinite_spec in Hp.
  rewrite div_spec, sub_spec, !mul_spec. unfold SF64div, SF64sub, SF64mul.
  rewrite !Finite.SFmul_not_finite by done.
  destruct (Prim2SF p) as [s|[]| |s m e]; try discriminate Hp; reflexivity.
Qed.

Lemma round_finite (x : float) : isfinite x = true → ∃ n, Py.round x = inr n.
Proof.
  unfold isfinite, Py.round. destruct (Prim2SF x); try discriminate; eauto.
Qed.

Lemma round_nan (x : float) : Prim2SF x = S754_nan → Py.round x = inl ValueError.
Proof. unfold Py.round. intros ->. reflexivity. Qed.

(** A finite product has finite factors. *)
Lemma mul_finite_inv (x y : float) :
  isfinite (x * y) = true → isfinite x = true ∧ isfinite y = true.
Proof. rewrite !isfinite_spec, mul_spec. apply Finite.SFmul_finite_inv. Qed.

(** A finite weight that passes the weight check is above zero. *)
Lemma finite_not_le_zero (w : float) :
  isfinite w = true → (w <=? 0)%float = false → (0 <? w)%float = true.
Proof.
  unfold isfinite. rewrite leb_spec, ltb_spec. change (Prim2SF 0) with (S754_zero false).
  unfold SFleb, SFltb, SFcompare.
  destruct (Prim2SF w) as [s|s| |[] m e]; congruence.
Qed.

(** In the table the factor of the alternative mode is at least twice the
    rail factor, for both containers. *)
Lemma factors_twice (c : string) (rf sf : float) :
  c = "dfe" ∨ c = "sfe" →
  factor "rail" c = Some rf → factor "ship_plus" c = Some sf →
  twice_le (Prim2SF rf) (Prim2SF sf).
Proof.
  destruct factor_table as (F1 & F2 & F3 & F4).
  intros [->| ->] Hrf Hsf.
  - rewrite F1 in Hrf. rewrite F3 in Hsf. injection Hrf as <-. injection Hsf as <-.
    vm_compute; split; discriminate.
  - rewrite F2 in Hrf. rewrite F4 in Hsf. injection Hrf as <-. injection Hsf as <-.
    vm_compute; split; discriminate.
Qed.

Lemma not_negative_ltb (x : float) :
  not_negative (Prim2SF x) → (x <? 0)%float = false.
Proof.
  rewrite ltb_spec. change (Prim2SF 0) with (S754_zero false).
  unfold SFltb, SFcompare. destruct (Prim2SF x) as [s|[]| |[] m e]; done.
Qed.

(** A weight that passes the weight check times a distance that is not
    below zero is not negative. *)
Lemma product_not_negative (w d : float) :
  (w <=? 0)%float = false → (0 <=? d)%float = true →
  not_negative (Prim2SF (w * d)).
Proof.
  rewrite !leb_spec, mul_spec. change (Prim2SF 0) with (S754_zero false).
  unfold SF64mul, SFleb, SFcompare.
  destruct (Prim2SF w) as [sw|[]| |[] mw ew]; try done;
    destruct (Prim2SF d) as [sd|[]| |[] md ed]; try done.
  intros _ _. apply Sign.not_negative_round.
Qed.

(** When the product [p] is not negative, neither is the saving
    [p * sf - p * rf], for a factor [sf] at least twice [rf]. *)
Lemma saved_not_negative (p rf sf : float) :
  small_positive (Prim2SF rf) → small_positive (Prim2SF sf) →
  twice_le (Prim2SF rf) (Prim2SF sf) →
  not_negative (Prim2SF p) →
  not_negative (Prim2SF (p * sf - p * rf)).
Proof.
  intros Hrf Hsf Htw Hp. rewrite sub_spec, !mul_spec. unfold SF64sub, SF64mul.
  pose proof (Prim2SF_valid p) as Hv.
  destruct (Prim2SF p) as [s|[]| |[] mp ep] eqn:Hx; try done.
  - destruct (Prim2SF rf) as [| | |[] mr er]; try done.
    destruct (Prim2SF sf) as [| | |[] ms es]; try done. destruct s; exact I.
  - rewrite !Finite.SFmul_not_finite by done. exact I.
  - by apply Sign.SFmul_twice.
Qed.

(** [round(saved / 22)] is not negative when [saved] is not. *)
Lemma round_quotient_not_negative (saved : float) (n : Z) :
  not_negative (Prim2SF saved) → Py.round (saved / 22)%float = inr n → 0 ≤ n.
Proof.
  intros Hs. unfold Py.round. rewrite div_spec, Binary64.Prim2SF_22. unfold SF64div.
  destruct (Prim2SF saved) as [s|[]| |[] m e]; try done.
  - cbn [SFdiv twenty_two]. intros [= <-]. lia.
  - unfold twenty_two, SFdiv.
    destruct (SFdiv_core_binary _ _ _ _ _ _) as [[q e'] l]. cbn [xorb].
    destruct (Binary64.binary_round_aux_cases false q e' l) as [->|[->|[->|(m' & e'' & ->)]]];
      try discriminate; intros [= <-]; [lia|]. cbn [cond_Zopp].
    apply Trees.round_half_even_nonneg;
      [apply Trees.numerator_nonneg|apply Trees.denominator_pos].
Qed.

(** ** The sign of the distance *)

Lemma leb_zero_spec (x : float) :
  (0 <=? x)%float = true ↔ at_least_zero (Prim2SF x).
Proof.
  rewrite leb_spec. change (Prim2SF 0) with (S754_zero false).
  unfold SFleb, SFcompare. destruct (Prim2SF x) as [s|[]| |[] m e]; simpl; intuition congruence.
Qed.

(** Rounding a magnitude gives a zero, a finite float or an infinity of
    the sign asked for, never a NaN. *)
Lemma binary_round_aux_not_nan (s : bool) (m e : Z) (l : location) :
  0 ≤ m →
  binary_round_aux prec emax s m e l = S754_zero s ∨
  binary_round_aux prec emax s m e l = S754_infinity s ∨
  ∃ m' e', binary_round_aux prec emax s m e l = S754_finite s m' e'.
Proof.
  intros Hm. unfold binary_round_aux.
  pose proof (Binary64.shr_fexp_spec m e l Hm) as [He1 Hm1].
  destruct (shr_fexp prec emax m e l) as [r1 e1]. cbn [fst snd] in He1, Hm1.
  pose proof (Binary64.round_nearest_even_bounds (shr_m r1) (loc_of_shr_record r1)) as Hrnd.
  set (m2 := round_nearest_even (shr_m r1) (loc_of_shr_record r1)) in *.
  assert (0 ≤ m2) as Hm2.
  { assert (0 ≤ shr_m r1); [|lia]. rewrite Hm1.
    apply Z.div_pos; [done|]. apply Z.pow_pos_nonneg; lia. }
  pose proof (Binary64.shr_fexp_spec m2 e1 loc_Exact Hm2) as [He2 Hm3].
  destruct (shr_fexp prec emax m2 e1 loc_Exact) as [r2 e2]. cbn [fst snd] in He2, Hm3.
  destruct (shr_m r2) as [|p|p]; [auto| |].
  - destruct (e2 <=? emax - prec); eauto.
  - exfalso. assert (0 ≤ m2 / 2 ^ (e2 - e1)); [|lia].
    apply Z.div_pos; [done|]. apply Z.pow_pos_nonneg; lia.
Qed.

(** The sum of two floats that are at least zero is at least zero. *)
Lemma add_at_least_zero (x y : float) :
  (0 <=? x)%float = true → (0 <=? y)%float = true → (0 <=? x + y)%float = true.
Proof.
  rewrite !leb_zero_spec, add_spec. unfold SF64add.
  destruct (Prim2SF x) as [sx|[]| |[] mx ex]; try done;
    destruct (Prim2SF y) as [sy|[]| |[] my ey]; try done.
  - destruct sx, sy; done.
  - intros _ _. unfold SFadd. cbn [cond_Zopp].
    destruct (Z.pos (fst (shl_align mx ex (Z.min ex ey)))
              + Z.pos (fst (shl_align my ey (Z.min ex ey)))) as [|p|p] eqn:Hsum; [done| |lia].
    cbn [binary_normalize]. unfold binary_round.
    destruct (shl_align p _ _) as [mz ez].
    destruct (binary_round_aux_not_nan false (Z.pos mz) ez loc_Exact ltac:(lia))
      as [->|[->|(m' & e' & ->)]]; exact I.
Qed.

Lemma sum_at_least_zero (hs : list float) (acc : float) :
  (0 <=? acc)%float = true →
  Forall (λ h, (0 <=? h)%float = true) hs →
  (0 <=? sum_from acc hs)%float = true.
Proof.
  intros Hacc Hall. revert acc Hacc.
  induction Hall as [|h hs Hh _ IH]; intros acc Hacc; [done|].
  apply IH. by apply add_at_least_zero.
Qed.

(** ** The ways [calculate_emissions] ends *)

Section Extras.

Variable ROUTES : gmap string Route.
Variable COORDINATES : gmap string Coordinate.
Variable haversine : float → float → float → float → float.

Lemma located_unique (sts : list string) (pts pts' : list Coordinate) :
  Forall2 (located COORDINATES) sts pts → Forall2 (located COORDINATES) sts pts' →
  pts = pts'.
Proof.
  intros H. revert pts'. induction H as [|s c sts pts Hc _ IH]; intros pts' H';
    inversion H' as [|? c' ? pts'' Hc' Hrest]; subst; [reflexivity|].
  unfold located in Hc, Hc'. f_equal; [congruence|]. by apply IH.
Qed.

Lemma located_resolve (sts : list string) :
  Forall (λ s, is_Some (COORDINATES !! s)) sts →
  ∃ pts, Forall2 (located COORDINATES) sts pts.
Proof.
  induction 1 as [|s sts [c Hc] _ [pts IH]].
  - exists []. constructor.
  - exists (c :: pts). by constructor.
Qed.

(** A validated request whose stations resolve to [pts] reaches line 107
    with the locals of [locals_of], for two factors of the table. *)
Lemma calculate_locals_resolved (req : EmissionRequest) (route : Route)
    (pts : list Coordinate) :
  validated ROUTES req →
  ROUTES !! route_id req = Some route →
  Forall2 (located COORDINATES) (stations route) pts →
  ∃ rf sf,
    small_positive (Prim2SF rf) ∧ small_positive (Prim2SF sf) ∧
    calculate_locals ROUTES COORDINATES haversine req
      = inr (locals_of haversine req route pts rf sf).
Proof.
  intros Hval Hroute Hall.
  pose proof (calculate_locals_outcome ROUTES COORDINATES haversine req) as Hout.
  destruct Hval as (Hr & Hc & Hw).
  inversion Hout as [Hn|_ Hn|_ _ Hn|route' ok s rest pts' _ Hroute' Hst Hok Hnone
                     |route' pts' rf sf _ Hroute' Hloc Hrf Hsf Heq].
  - congruence.
  - contradiction.
  - congruence.
  - exfalso. assert (route' = route) as -> by congruence.
    apply (located_not_missing COORDINATES _ _ s Hall); [|done].
    rewrite Hst, elem_of_app, elem_of_cons. auto.
  - assert (route' = route) as -> by congruence.
    rewrite (located_unique _ _ _ Hall Hloc).
    destruct (factors_small _ _ _ Hc Hrf Hsf). eauto.
Qed.

(** Lines 110-122 on the locals of [locals_of]: [round] refuses a NaN
    quotient, [stations[0]] refuses an empty route, and otherwise there is
    a response. *)
Lemma respond_locals_of (req : EmissionRequest) (route : Route)
    (pts : list Coordinate) (rf sf : float) :
  small_positive (Prim2SF rf) → small_positive (Prim2SF sf) →
  (isfinite (weight_tons req * path_distance haversine pts) = false →
   respond (locals_of haversine req route pts rf sf) = inl ValueError) ∧
  (isfinite (weight_tons req * path_distance haversine pts) = true →
   stations route = [] →
   respond (locals_of haversine req route pts rf sf) = inl IndexError) ∧
  (isfinite (weight_tons req * path_distance haversine pts) = true →
   stations route ≠ [] →
   ∃ r, respond (locals_of haversine req route pts rf sf) = inr r).
Proof.
  intros Hrf Hsf. unfold respond, locals_of.
  cbn [l_saved l_route l_distance_km l_rail_emission l_ship_emission l_coords].
  split; [|split].
  - intros Hp. rewrite (round_nan _ (saved_nan _ _ _ Hrf Hsf Hp)). reflexivity.
  - intros Hp Hst. destruct (saved_finite _ _ _ Hrf Hsf Hp) as (_ & _ & _ & Hq).
    destruct (round_finite _ Hq) as [n ->]. rewrite Hst. reflexivity.
  - intros Hp Hst. destruct (saved_finite _ _ _ Hrf Hsf Hp) as (_ & _ & _ & Hq).
    destruct (round_finite _ Hq) as [n ->].
    destruct (stations route) as [|s sts] using rev_ind; [done|]. clear IHsts.
    cbn [bind]. unfold Py.index, Py.index_last. rewrite last_snoc.
    destruct ((sts ++ [s]) !! 0%nat) as [o|] eqn:Ho; [cbn [bind ret]; eauto|].
    apply lookup_ge_None in Ho. rewrite length_app in Ho. simpl in Ho. lia.
Qed.

(** What a response tells about the request and the tables. *)
Lemma success_inv (req : EmissionRequest) (r : Response) :
  calculate_emissions ROUTES COORDINATES haversine req = inr r →
  validated ROUTES req ∧
  ∃ route pts,
    ROUTES !! route_id req = Some route ∧
    stations route ≠ [] ∧
    Forall2 (located COORDINATES) (stations route) pts ∧
    isfinite (weight_tons req * path_distance haversine pts) = true.
Proof.
  intros Hr.
  apply calculate_emissions_inr in Hr
    as (route & pts & rf & sf & n & o & t & Hval & Hroute & Hloc & Hrf & Hsf & _ & Hn & Ho & _).
  split; [done|]. exists route, pts. split; [done|].
  split; [intros Hnil; rewrite Hnil in Ho; discriminate|]. split; [done|].
  destruct (factors_small _ _ _ (proj1 (proj2 Hval)) Hrf Hsf) as [Hsrf Hssf].
  destruct (isfinite (weight_tons req * path_distance haversine pts)) eqn:Hp; [done|].
  cbn [l_saved locals_of] in Hn.
  rewrite (round_nan _ (saved_nan _ _ _ Hsrf Hssf Hp)) in Hn. discriminate.
Qed.

(** X1. A call succeeds exactly when the request passes the three
    checks, the route has at least one station, every station has
    coordinates, and [weight_tons * distance_km] is finite. *)
Theorem success_iff (req : EmissionRequest) :
  (∃ r, calculate_emissions ROUTES COORDINATES haversine req = inr r)
  ↔ (validated ROUTES req ∧
     ∃ route pts,
       ROUTES !! route_id req = Some route ∧
       stations route ≠ [] ∧
       Forall2 (located COORDINATES) (stations route) pts ∧
       isfinite (weight_tons req * path_distance haversine pts) = true).
Proof.
  split.
  - intros [r Hr]. exact (success_inv req r Hr).
  - intros (Hval & route & pts & Hroute & Hne & Hloc & Hp).
    destruct (calculate_locals_resolved req route pts Hval Hroute Hloc)
      as (rf & sf & Hrf & Hsf & Hl).
    unfold calculate_emissions. rewrite Hl. cbn [bind].
    destruct (respond_locals_of req route pts rf sf Hrf Hsf) as (_ & _ & Hok). auto.
Qed.

(** X2. A call that fails fails in one of four ways: with an HTTP
    400 error, when a check of lines 78-83 rejects the request; with the
    HTTP 500 error, when a station of the route has no coordinates; with a
    [ValueError], when [weight_tons * distance_km] is a NaN or an
    infinity; or with an [IndexError], when the route has no station. It
    never fails with a [KeyError] or an [OverflowError]. *)
Theorem failure_modes (req : EmissionRequest) (e : exn) :
  calculate_emissions ROUTES COORDINATES haversine req = inl e →
  (∃ detail, e = HTTPException 400 detail ∧ ¬ validated ROUTES req) ∨
  (∃ route s, e = HTTPException 500 (no_coordinates +:+ s) ∧
     ROUTES !! route_id req = Some route ∧ s ∈ stations route ∧
     COORDINATES !! s = None) ∨
  (∃ route pts, e = ValueError ∧
     ROUTES !! route_id req = Some route ∧
     Forall2 (located COORDINATES) (stations route) pts ∧
     isfinite (weight_tons req * path_distance haversine pts) = false) ∨
  (∃ route, e = IndexError ∧
     ROUTES !! route_id req = Some route ∧ stations route = []).
Proof.
  unfold calculate_emissions.
  pose proof (calculate_locals_outcome ROUTES COORDINATES haversine req) as Hout.
  inversion Hout as [Hn|Hr Hn|Hr Hc Hn|route ok s rest pts Hval Hroute Hst Hok Hnone
                     |route pts rf sf Hval Hroute Hloc Hrf Hsf Heq]; cbn [bind].
  - intros [= <-]. left. eexists. split; [reflexivity|].
    intros ([x Hx] & _). congruence.
  - intros [= <-]. left. eexists. split; [reflexivity|]. intros (_ & Hc & _). tauto.
  - intros [= <-]. left. eexists. split; [reflexivity|]. intros (_ & _ & Hw). congruence.
  - intros [= <-]. right. left. exists route, s. split; [reflexivity|].
    split; [done|]. split; [|done]. rewrite Hst, elem_of_app, elem_of_cons. auto.
  - intros Herr. right. right.
    destruct (factors_small _ _ _ (proj1 (proj2 Hval)) Hrf Hsf) as [Hsrf Hssf].
    destruct (respond_locals_of req route pts rf sf Hsrf Hssf) as (Hnan & Hidx & Hok).
    destruct (isfinite (weight_tons req * path_distance haversine pts)) eqn:Hp.
    + destruct (stations route) as [|s0 sts] eqn:Hst.
      * rewrite (Hidx eq_refl eq_refl) in Herr. injection Herr as <-.
        right. exists route. done.
      * destruct (Hok eq_refl) as [r Hr]; [done|]. rewrite Hr in Herr. discriminate.
    + rewrite (Hnan eq_refl) in Herr. injection Herr as <-.
      left. exists route, pts. done.
Qed.

(** X3. A validated request whose stations all have coordinates
    fails with a [ValueError] when its weight is a NaN or an infinity, and
    also when the product [weight_tons * distance_km] overflows. *)
Theorem non_finite_product_fails (req : EmissionRequest) (route : Route)
    (pts : list Coordinate) :
  validated ROUTES req →
  ROUTES !! route_id req = Some route →
  Forall2 (located COORDINATES) (stations route) pts →
  isfinite (weight_tons req) = false ∨
  isfinite (weight_tons req * path_distance haversine pts) = false →
  calculate_emissions ROUTES COORDINATES haversine req = inl ValueError.
Proof.
  intros Hval Hroute Hloc Hnf.
  assert (isfinite (weight_tons req * path_distance haversine pts) = false) as Hp.
  { destruct Hnf as [Hw|Hp]; [|done].
    destruct (isfinite (_ * _)) eqn:Hp; [|done].
    apply mul_finite_inv in Hp as [Hw' _]. congruence. }
  destruct (calculate_locals_resolved req route pts Hval Hroute Hloc)
    as (rf & sf & Hrf & Hsf & Hl).
  unfold calculate_emissions. rewrite Hl. cbn [bind].
  destruct (respond_locals_of req route pts rf sf Hrf Hsf) as (Hnan & _ & _). auto.
Qed.

(** X4. A validated request for a route without stations fails: with
    an [IndexError] at [stations[0]] when the weight is finite, and with a
    [ValueError] before that when it is not. *)
Theorem empty_route_fails (req : EmissionRequest) (route : Route) :
  validated ROUTES req →
  ROUTES !! route_id req = Some route →
  stations route = [] →
  calculate_emissions ROUTES COORDINATES haversine req
  = inl (if isfinite (weight_tons req) then IndexError else ValueError).
Proof.
  intros Hval Hroute Hst.
  assert (Forall2 (located COORDINATES) (stations route) []) as Hloc
    by (rewrite Hst; constructor).
  destruct (calculate_locals_resolved req route [] Hval Hroute Hloc)
    as (rf & sf & Hrf & Hsf & Hl).
  unfold calculate_emissions. rewrite Hl. cbn [bind].
  destruct (respond_locals_of req route [] rf sf Hrf Hsf) as (Hnan & Hidx & _).
  change (path_distance haversine []) with 0%float in Hnan, Hidx.
  destruct (isfinite (weight_tons req)) eqn:Hw.
  - apply Hidx; [|done]. rewrite (mul_zero_finite _ Hw (proj2 (proj2 Hval))). reflexivity.
  - apply Hnan. destruct (isfinite (_ * _)) eqn:Hp; [|done].
    apply mul_finite_inv in Hp as [Hw' _]. congruence.
Qed.

(** X5. Behind every response there are only finite numbers: the
    weight is finite and above zero, and the distance, both emissions and
    the saving, before they are rounded, are finite. *)
Theorem success_is_finite (req : EmissionRequest) (r : Response) :
  calculate_emissions ROUTES COORDINATES haversine req = inr r →
  isfinite (weight_tons req) = true ∧
  (0 <? weight_tons req)%float = true ∧
  ∃ l, calculate_locals ROUTES COORDINATES haversine req = inr l ∧
       isfinite (l_distance_km l) = true ∧
       isfinite (l_rail_emission l) = true ∧
       isfinite (l_ship_emission l) = true ∧
       isfinite (l_saved l) = true.
Proof.
  intros Hr.
  destruct (success_inv req r Hr) as (Hval & route & pts & Hroute & _ & Hloc & Hp).
  destruct (calculate_locals_resolved req route pts Hval Hroute Hloc)
    as (rf & sf & Hrf & Hsf & Hl).
  destruct (mul_finite_inv _ _ Hp) as [Hw Hd].
  destruct (saved_finite _ _ _ Hrf Hsf Hp) as (Hrail & Hship & Hsaved & _).
  split; [done|]. split; [exact (finite_not_le_zero _ Hw (proj2 (proj2 Hval)))|].
  exists (locals_of haversine req route pts rf sf). split; [done|].
  cbn [l_distance_km l_rail_emission l_ship_emission l_saved locals_of]. done.
Qed.

(** X6. The distance accumulated by the loop is at least zero,
    and so not a NaN, when every leg that [haversine] returned for the
    route is at least zero. *)
Theorem distance_is_not_negative (req : EmissionRequest) (l : Locals) :
  calculate_locals ROUTES COORDINATES haversine req = inr l →
  Forall (λ h, (0 <=? h)%float = true) (segments haversine (l_coords l)) →
  (0 <=? l_distance_km l)%float = true.
Proof.
  intros Hl Hlegs.
  pose proof (calculate_locals_outcome ROUTES COORDINATES haversine req) as Hout.
  rewrite Hl in Hout.
  inversion Hout as [| | | |route pts rf sf Hval Hroute Hloc Hrf Hsf Heq]. subst l.
  cbn [l_coords l_distance_km locals_of] in *.
  unfold path_distance. by apply sum_at_least_zero.
Qed.

(** X7. With the factors of the table the saving is never negative
    when the distance is not: the alternative mode is charged at least
    twice the rail factor. So the clamp [max(0, ...)] of line 110 changes
    nothing, and [trees] is [round(saved / 22)] itself. *)
Theorem saving_is_not_negative (req : EmissionRequest) (l : Locals) :
  calculate_locals ROUTES COORDINATES haversine req = inr l →
  (0 <=? l_distance_km l)%float = true →
  (l_saved l <? 0)%float = false ∧
  ∀ r, calculate_emissions ROUTES COORDINATES haversine req = inr r →
       Py.round (l_saved l / 22)%float = inr (trees r).
Proof.
  intros Hl Hd.
  pose proof (calculate_locals_outcome ROUTES COORDINATES haversine req) as Hout.
  rewrite Hl in Hout.
  inversion Hout as [| | | |route pts rf sf Hval Hroute Hloc Hrf Hsf Heq]. subst l.
  cbn [l_saved l_distance_km locals_of] in *.
  destruct Hval as (_ & Hc & Hw).
  destruct (factors_small _ _ _ Hc Hrf Hsf) as [Hsrf Hssf].
  pose proof (factors_twice _ _ _ Hc Hrf Hsf) as Htw.
  pose proof (saved_not_negative _ _ _ Hsrf Hssf Htw (product_not_negative _ _ Hw Hd))
    as Hsaved.
  split; [by apply not_negative_ltb|].
  intros r Hr. unfold calculate_emissions in Hr. rewrite Hl in Hr. cbn [bind] in Hr.
  apply respond_inr in Hr as (n & o & t & Hn & _ & _ & ->).
  cbn [l_saved locals_of trees response_of] in *.
  pose proof (round_quotient_not_negative _ _ Hsaved Hn). rewrite Hn. f_equal. lia.
Qed.

(** X8. The checks of lines 78-83 run in the order route,
    container, weight, and the first that fails gives the detail of the
    HTTP 400 error, whatever the later fields hold. *)
Theorem validation_precedence (req : EmissionRequest) :
  (ROUTES !! route_id req = None →
   calculate_emissions ROUTES COORDINATES haversine req
   = inl (HTTPException 400 "Неверный ID маршрута")) ∧
  (is_Some (ROUTES !! route_id req) →
   ¬ (container req = "dfe" ∨ container req = "sfe") →
   calculate_emissions ROUTES COORDINATES haversine req
   = inl (HTTPException 400 "container должен быть 'dfe' или 'sfe'")) ∧
  (is_Some (ROUTES !! route_id req) →
   container req = "dfe" ∨ container req = "sfe" →
   (weight_tons req <=? 0)%float = true →
   calculate_emissions ROUTES COORDINATES haversine req
   = inl (HTTPException 400 "Масса должна быть больше 0")).
Proof.
  unfold calculate_emissions.
  pose proof (calculate_locals_outcome ROUTES COORDINATES haversine req) as Hout.
  inversion Hout as [Hn|Hr Hn|Hr Hc Hn|route ok s rest pts Hval Hroute Hst Hok Hnone
                     |route pts rf sf Hval Hroute Hloc Hrf Hsf Heq]; cbn [bind].
  - split; [done|]. split; intros [x Hx]; congruence.
  - split; [intros; destruct Hr; congruence|]. split; [done|tauto].
  - split; [intros; destruct Hr; congruence|]. split; [tauto|done].
  - destruct Hval as ([x Hx] & Hc & Hw).
    split; [congruence|]. split; [tauto|congruence].
  - destruct Hval as ([x Hx] & Hc & Hw).
    split; [congruence|]. split; [tauto|congruence].
Qed.

End Extras.

(** ** The listing endpoints *)

Section Listings.

Variable COORDINATES : gmap string Coordinate.
Variable haversine : float → float → float → float → float.

(** The ids listed are the keys of the table, in its order. *)
Lemma list_routes_ids (items : list (string * Route)) :
  entry_id <$> rl_routes (list_routes items) = items.*1.
Proof.
  unfold list_routes. cbn [rl_routes].
  induction items as [|[k v] items IH]; [reflexivity|].
  cbn [fmap list_fmap fst entry_id] in *. by rewrite IH.
Qed.

(** X9. [list_routes] lists the routes of the table, each once, under
    its key and with its name: the entries are as many as the routes, their
    ids are distinct, every entry is a route of the table and every route
    of the table has its entry. *)
Theorem list_routes_lists_the_table (items : list (string * Route)) :
  NoDup items.*1 →
  length (rl_routes (list_routes items)) = size (dict_of_items items) ∧
  NoDup (entry_id <$> rl_routes (list_routes items)) ∧
  ∀ k n,
    {| entry_id := k; entry_name := n |} ∈ rl_routes (list_routes items)
    ↔ ∃ route, dict_of_items items !! k = Some route ∧ name route = n.
Proof.
  intros Hnd. split; [|split].
  - unfold list_routes, dict_of_items. cbn [rl_routes].
    rewrite length_fmap. symmetry. by apply map_size_list_to_map.
  - by rewrite list_routes_ids.
  - unfold list_routes, dict_of_items. cbn [rl_routes].
    intros k n. rewrite list_elem_of_fmap. split.
    + intros ([k' route] & [= -> ->] & Hin). exists route. split; [|done].
      by apply elem_of_list_to_map.
    + intros (route & Hlook & <-). exists (k, route). split; [done|].
      by apply elem_of_list_to_map.
Qed.

(** X10. A request for a route that [list_routes] lists is never
    refused as an unknown route, and when it succeeds the response carries
    the name listed for that route. *)
Theorem listed_route_is_accepted (items : list (string * Route))
    (entry : RouteEntry) (req : EmissionRequest) :
  NoDup items.*1 →
  entry ∈ rl_routes (list_routes items) →
  route_id req = entry_id entry →
  calculate_emissions (dict_of_items items) COORDINATES haversine req
    ≠ inl (HTTPException 400 "Неверный ID маршрута") ∧
  ∀ r, calculate_emissions (dict_of_items items) COORDINATES haversine req = inr r →
       route_name r = entry_name entry.
Proof.
  intros Hnd Hin Hid. unfold list_routes in Hin. cbn [rl_routes] in Hin.
  apply list_elem_of_fmap in Hin as ([k route] & -> & Hin). cbn [entry_id entry_name] in *.
  assert (dict_of_items items !! route_id req = Some route) as Hlook
    by (rewrite Hid; by apply elem_of_list_to_map).
  split.
  - unfold calculate_emissions.
    pose proof (calculate_locals_outcome (dict_of_items items) COORDINATES haversine req)
      as Hout.
    inversion Hout as [Hn| | | |route' pts rf sf Hval Hroute Hloc Hrf Hsf Heq];
      cbn [bind]; try discriminate; [congruence|].
    intros Herr. apply respond_inl in Herr as [|[|]]; discriminate.
  - intros r Hr.
    apply calculate_emissions_inr in Hr
      as (route' & pts & rf & sf & n & o & t & _ & Hroute & _ & _ & _ & _ & _ & _ & _ & ->).
    cbn [route_name response_of l_route locals_of]. congruence.
Qed.

(** X11. A request for a route id that [list_routes] does not list
    is refused with the HTTP 400 error of an unknown route, whatever its
    container and weight. *)
Theorem unlisted_route_is_rejected (items : list (string * Route))
    (req : EmissionRequest) :
  route_id req ∉ entry_id <$> rl_routes (list_routes items) →
  calculate_emissions (dict_of_items items) COORDINATES haversine req
  = inl (HTTPException 400 "Неверный ID маршрута").
Proof.
  rewrite list_routes_ids. intros Hnot.
  apply not_elem_of_list_to_map_1 in Hnot. fold (dict_of_items items) in Hnot.
  unfold calculate_emissions, calculate_locals, Py.contains. rewrite Hnot. reflexivity.
Qed.

(** X12. [get_full_routes] serves the route table as it is and the
    coordinate table key for key, each pair (lat, lon) as the list
    [lat, lon]: no station is added or lost, and every value served has
    exactly the two numbers of the table. *)
Theorem full_routes_serves_the_tables (ROUTES : gmap string Route) :
  fr_routes (get_full_routes ROUTES COORDINATES) = ROUTES ∧
  dom (fr_coordinates (get_full_routes ROUTES COORDINATES)) = dom COORDINATES ∧
  ∀ k v,
    fr_coordinates (get_full_routes ROUTES COORDINATES) !! k = Some v
    ↔ ∃ lat lon, COORDINATES !! k = Some (lat, lon) ∧ v = [lat; lon].
Proof.
  unfold get_full_routes. cbn [fr_routes fr_coordinates].
  split; [reflexivity|]. split; [apply dom_fmap_L|].
  intros k v. rewrite lookup_fmap_Some. split.
  - intros ([lat lon] & <- & Hk). eauto.
  - intros (lat & lon & Hk & ->). exists (lat, lon). done.
Qed.

(** X13. The path a response traces is the one [get_full_routes]
    serves: the route is served under the requested id with the name
    reported, and the coordinates of the response are, station by station
    in route order, the [lat, lon] lists served for its stations. *)
Theorem response_trace_is_served (ROUTES : gmap string Route)
    (req : EmissionRequest) (r : Response) :
  calculate_emissions ROUTES COORDINATES haversine req = inr r →
  ∃ route,
    fr_routes (get_full_routes ROUTES COORDINATES) !! route_id req = Some route ∧
    name route = route_name r ∧
    Forall2 (λ s c, fr_coordinates (get_full_routes ROUTES COORDINATES) !! s
                    = Some (list_of_pair c))
            (stations route) (coords r).
Proof.
  intros Hr.
  apply calculate_emissions_inr in Hr
    as (route & pts & rf & sf & n & o & t & _ & Hroute & Hloc & _ & _ & _ & _ & _ & _ & ->).
  exists route. unfold get_full_routes.
  cbn [fr_routes fr_coordinates route_name coords response_of l_route l_coords locals_of].
  split; [done|]. split; [done|].
  eapply Forall2_impl; [exact Hloc|].
  intros s c Hc. unfold located in Hc. rewrite lookup_fmap, Hc. reflexivity.
Qed.

End Listings.

(** ** The rest of the code at work *)

(** A finite weight can fail like an infinite one: here the product of
    weight and distance overflows. *)
Example overflow_run :
  calculate_emissions demo_routes demo_coordinates demo_haversine
    {| route_id := "1"; weight_tons := 0x1p1020; container := "sfe" |}
  = inl ValueError.
Proof. vm_compute. reflexivity. Qed.

Example list_routes_run :
  list_routes route_items
  = {| rl_routes := [ {| entry_id := "1"; entry_name := "A - B" |};
                      {| entry_id := "2"; entry_name := "A" |};
                      {| entry_id := "3"; entry_name := "A - X" |};
                      {| entry_id := "4"; entry_name := "nowhere" |} ] |}.
Proof. reflexivity. Qed.

Lemma route_items_nodup : NoDup route_items.*1.
Proof. apply (bool_decide_unpack _). vm_compute. exact I. Defined.

Lemma items_validated_evidence (req : EmissionRequest) :
  is_Some (dict_of_items route_items !! route_id req) →
  container req = "dfe" →
  (weight_tons req <=? 0)%float = false →
  validated (dict_of_items route_items) req.
Proof. intros H1 H2 H3. split; [exact H1|]. split; [left; exact H2|exact H3]. Defined.

Lemma infinite_validated_evidence : validated demo_routes infinite_request.
Proof.
  split; [eexists; reflexivity|]. split; [left; reflexivity|reflexivity].
Defined.

Lemma demo_located_evidence :
  Forall2 (located demo_coordinates) (stations demo_route)
          [(0%float, 0%float); (0%float, 1%float)].
Proof. repeat constructor. Defined.

Lemma demo_locals_evidence :
  calculate_locals demo_routes demo_coordinates demo_haversine demo_request
  = inr demo_locals.
Proof. vm_compute. reflexivity. Defined.

Lemma demo_run_evidence :
  calculate_emissions demo_routes demo_coordinates demo_haversine demo_request
  = inr demo_response.
Proof. vm_compute. reflexivity. Defined.

Lemma failure_modes_witness :
  ∃ s, s ∈ stations broken_route ∧ demo_coordinates !! s = None.
Proof.
  destruct (failure_modes demo_routes demo_coordinates demo_haversine broken_request
              (HTTPException 500 (no_coordinates +:+ "X")))
    as [(d & Hd & _)|[(route & s & _ & Hroute & Hin & Hnone)
       |[(route & pts & He & _)|(route & He & _)]]].
  - vm_compute. reflexivity.
  - discriminate Hd.
  - change (Some broken_route = Some route) in Hroute. injection Hroute as <-.
    exists s. split; assumption.
  - discriminate He.
  - discriminate He.
Defined.

Lemma non_finite_product_fails_witness :
  calculate_emissions demo_routes demo_coordinates demo_haversine infinite_request
  = inl ValueError.
Proof.
  apply (non_finite_product_fails demo_routes demo_coordinates demo_haversine
           infinite_request demo_route [(0%float, 0%float); (0%float, 1%float)]
           infinite_validated_evidence eq_refl demo_located_evidence).
  left. reflexivity.
Defined.

Lemma empty_route_fails_witness :
  calculate_emissions (dict_of_items route_items) demo_coordinates demo_haversine
    empty_request
  = inl IndexError.
Proof.
  apply (empty_route_fails (dict_of_items route_items) demo_coordinates demo_haversine
           empty_request empty_route).
  - apply items_validated_evidence; [eexists; reflexivity|reflexivity|reflexivity].
  - reflexivity.
  - reflexivity.
Defined.

Lemma success_is_finite_witness :
  isfinite (weight_tons demo_request) = true ∧
  (0 <? weight_tons demo_request)%float = true.
Proof.
  destruct (success_is_finite demo_routes demo_coordinates demo_haversine
              demo_request demo_response demo_run_evidence) as (Hw & Hpos & _).
  split; assumption.
Defined.

Lemma distance_is_not_negative_witness :
  (0 <=? l_distance_km demo_locals)%float = true.
Proof.
  apply (distance_is_not_negative demo_routes demo_coordinates demo_haversine
           demo_request demo_locals demo_locals_evidence).
  repeat constructor.
Defined.

Lemma saving_is_not_negative_witness :
  (l_saved demo_locals <? 0)%float = false ∧
  Py.round (l_saved demo_locals / 22)%float = inr (trees demo_response).
Proof.
  destruct (saving_is_not_negative demo_routes demo_coordinates demo_haversine
              demo_request demo_locals demo_locals_evidence) as [Hsign Htrees].
  - reflexivity.
  - split; [exact Hsign|exact (Htrees demo_response demo_run_evidence)].
Defined.

Lemma list_routes_lists_the_table_witness :
  length (rl_routes (list_routes route_items)) = size (dict_of_items route_items) ∧
  NoDup (entry_id <$> rl_routes (list_routes route_items)).
Proof.
  destruct (list_routes_lists_the_table route_items route_items_nodup)
    as (Hlen & Hnd & _).
  split; assumption.
Defined.

Lemma listed_route_is_accepted_witness :
  route_name demo_response = "A - B".
Proof.
  destruct (listed_route_is_accepted demo_coordinates demo_haversine route_items
              {| entry_id := "1"; entry_name := "A - B" |} demo_request
              route_items_nodup) as [_ Hname].
  - apply list_elem_of_In. simpl. left. reflexivity.
  - reflexivity.
  - apply Hname. vm_compute. reflexivity.
Defined.

Lemma unlisted_route_is_rejected_witness :
  calculate_emissions (dict_of_items route_items) demo_coordinates demo_haversine
    unknown_request
  = inl (HTTPException 400 "Неверный ID маршрута").
Proof.
  apply (unlisted_route_is_rejected demo_coordinates demo_haversine route_items
           unknown_request).
  apply (bool_decide_unpack _). vm_compute. exact I.
Defined.

Lemma response_trace_is_served_witness :
  ∃ route,
    fr_routes (get_full_routes demo_routes demo_coordinates) !! "1" = Some route ∧
    Forall2 (λ s c, fr_coordinates (get_full_routes demo_routes demo_coordinates) !! s
                    = Some (list_of_pair c))
            (stations route) (coords demo_response).
Proof.
  destruct (response_trace_is_served demo_coordinates demo_haversine demo_routes
              demo_request demo_response demo_run_evidence)
    as (route & Hroute & _ & Htrace).
  exists route. split; assumption.
Defined.
